(** * ufunc: generic range functions over slices and iterators

    A shallow embedding of the Go package [ufunc] (Reduce, Merge, Range,
    RangeX, Spans, Zip, ZipLongest) together with the properties its
    specification states about them.

    Conventions of the embedding.

    - A Go range function [iter.Seq[T]] is a function that receives the
      consumer's [yield] callback and drives it.  Here the consumer owns
      a state of type [St]; [yield x st] returns the new state and the
      boolean Go's [yield] returns ([false]: the consumer stopped).
      Running a range function returns an [outcome].
    - The unbounded loops of the source ([for { ... }], [for cond { ... }])
      take a number of permitted rounds; [Running] reports that the loop
      was still going when the rounds were used up.
    - A finite source sequence handed to Merge, Zip or ZipLongest is the
      list of the elements it produces; the handle [iter.Pull] makes of
      it holds the elements not pulled yet.
    - Go's [int] used for slice indices is taken as [Z]: the index
      arithmetic of [Spans] stays within the machine range for every
      slice whose length is at most 2^62. *)

From Stdlib Require Import ZArith QArith Qround Qabs Lia Lqa String.
From stdpp Require Import base option list list_numbers.

Local Open Scope nat_scope.
Local Open Scope list_scope.

(** ** Results of calls and of iterations *)

(** What a call that may panic gives back. *)
Inductive result (A : Type) : Type :=
| Ok (a : A)
| Panicked (msg : string).
Arguments Ok {A} a.
Arguments Panicked {A} msg.

(** What running a range function against a consumer gives back. *)
Inductive outcome (St : Type) : Type :=
| Returned (st : St)       (* the range function returned *)
| Panic (msg : string)     (* a run-time panic inside the loop *)
| Running (st : St).       (* the permitted rounds are used up *)
Arguments Returned {St} st.
Arguments Panic {St} msg.
Arguments Running {St} st.

Definition Yield (T St : Type) : Type := T -> St -> St * bool.

Definition Seq (T : Type) : Type :=
  forall St : Type, Yield T St -> St -> nat -> outcome St.

Definition Seq2 (K V : Type) : Type := Seq (K * V).

(** ** Consumers *)

(** [for x := range seq { acc = append(acc, x) }] *)
Definition collect {T : Type} : Yield T (list T) :=
  fun x acc => (acc ++ [x], true).

(** The same loop with a [break] once [k] elements have been taken. *)
Definition collect_upto {T : Type} (k : nat) : Yield T (list T) :=
  fun x acc => (acc ++ [x], length (acc ++ [x]) <? k).

Definition to_list {T : Type} (s : Seq T) (rounds : nat) : outcome (list T) :=
  s (list T) collect [] rounds.

Definition first_n {T : Type} (k : nat) (s : Seq T) (rounds : nat)
  : outcome (list T) :=
  s (list T) (collect_upto k) [] rounds.

(** Handing the elements [xs] to a consumer one after the other, until
    it stops; the boolean tells whether it still wants more. *)
Fixpoint feed {T St : Type} (yield : Yield T St) (xs : list T) (st : St)
  : St * bool :=
  match xs with
  | [] => (st, true)
  | x :: xs' =>
      let (st', more) := yield x st in
      if more then feed yield xs' st' else (st', false)
  end.

(** ** Reduce *)

Section Reduce.
Context {E A : Type}.

(** [for _, element := range elements { accumulator = reduce(element, accumulator) }] *)
Fixpoint Reduce (elements : list E) (reduce : E -> A -> A) (accumulator : A)
  : A :=
  match elements with
  | [] => accumulator
  | element :: rest => Reduce rest reduce (reduce element accumulator)
  end.

(** The specification's wording: a left-to-right fold that starts at
    [initial] and replaces the accumulator by [combine element accumulator]. *)
Definition Reduce_spec (elements : list E) (combine : E -> A -> A) (initial : A)
  : A :=
  fold_left (fun accumulator element => combine element accumulator)
            elements initial.
End Reduce.

(** ** Pull handles *)

(** State of the handle [iter.Pull] returns: what is still to come. *)
Abbreviation PullHandle E := (list E) (only parsing).

Section Pull.
Context {E : Type}.

Definition Pull (rfn : list E) : PullHandle E := rfn.

(** [element, ok := pull()] ; [None] stands for [ok == false]. *)
Definition pull (h : PullHandle E) : option E * PullHandle E :=
  match h with
  | [] => (None, [])
  | element :: h' => (Some element, h')
  end.
End Pull.

(** ** Merge *)

Section Merge.
Context {E St : Type}.
Variable yield : Yield E St.

(** Outcome of one pass of the inner [for i, pull := range pulls]. *)
Inductive sweep_result : Type :=
| SweepDone (pulls : list (PullHandle E)) (oks : list bool) (st : St)
| SweepReturn (st : St)
| SweepPanic (msg : string).

(** The inner loop from index [i] on, [n] indices left. *)
Fixpoint Merge_sweep (n i : nat) (pulls : list (PullHandle E))
         (oks : list bool) (st : St) : sweep_result :=
  match n with
  | O => SweepDone pulls oks st
  | S n' =>
      match pulls !! i, oks !! i with
      | Some h, Some true =>
          match pull h with
          | (Some element, h') =>
              let (st', more) := yield element st in
              if more
              then Merge_sweep n' (S i) (<[i:=h']> pulls) oks st'
              else SweepReturn st'
          | (None, h') =>
              Merge_sweep n' (S i) (<[i:=h']> pulls) (<[i:=false]> oks) st
          end
      | Some h, Some false => Merge_sweep n' (S i) pulls oks st
      | _, _ => SweepPanic "index out of range"%string
      end
  end.

(** [slices.Contains(oks, true)] *)
Definition Contains_true (oks : list bool) : bool := existsb (fun ok => ok) oks.

(** [for slices.Contains(oks, true) { ... }] *)
Fixpoint Merge_loop (rounds : nat) (pulls : list (PullHandle E))
         (oks : list bool) (st : St) : outcome St :=
  if Contains_true oks then
    match rounds with
    | O => Running st
    | S rounds' =>
        match Merge_sweep (length pulls) 0 pulls oks st with
        | SweepDone pulls' oks' st' => Merge_loop rounds' pulls' oks' st'
        | SweepReturn st' => Returned st'
        | SweepPanic msg => Panic msg
        end
    end
  else Returned st.
End Merge.

Definition Merge {E : Type} (rfns : list (list E)) : Seq E :=
  fun St yield st rounds =>
    Merge_loop yield rounds (map Pull rfns) (map (fun _ => true) rfns) st.

(** The round-robin order in the specification's words: sweep [r] takes
    element [r] of every source that has one, in source order. *)
Definition sweep_elements {E : Type} (rfns : list (list E)) (r : nat) : list E :=
  flat_map (fun rfn => option_list (rfn !! r)) rfns.

Definition round_robin {E : Type} (rfns : list (list E)) : list E :=
  flat_map (sweep_elements rfns) (seq 0 (max_list_with length rfns)).

(** ** Range and RangeX *)

(** Modelled from the spec: the constraint [ureal.SignedNumber] of the
    collaborator package ureal is not part of the sources.  The
    specification describes it as a signed numeric type "supporting
    comparison, addition, and subtraction"; [num_const] is the conversion
    of the untyped constants [0] and [1] the code compares with and
    steps by. *)
Class SignedNumber (N : Type) : Type := {
  num_const : Z -> N;
  num_le : N -> N -> bool;
  num_lt : N -> N -> bool;
  num_add : N -> N -> N;
  num_sub : N -> N -> N
}.

(** Exact integers. *)
#[export] Instance SignedNumber_Z : SignedNumber Z := {|
  num_const := fun z => z;
  num_le := Z.leb;
  num_lt := Z.ltb;
  num_add := Z.add;
  num_sub := Z.sub
|}.

(** Exact rationals. *)
#[export] Instance SignedNumber_Q : SignedNumber Q := {|
  num_const := inject_Z;
  num_le := Qle_bool;
  num_lt := fun a b => negb (Qle_bool b a);
  num_add := Qplus;
  num_sub := Qminus
|}.

Section RangeX.
Context {N : Type} `{SignedNumber N}.

Section Loops.
Context {St : Type}.
Variable yield : Yield N St.

(** [for ; start < end; start += step { if !yield(start) { return } }] *)
Fixpoint RangeX_up (rounds : nat) (start end_ step : N) (st : St)
  : outcome St :=
  if num_lt start end_ then
    match rounds with
    | O => Running st
    | S rounds' =>
        let (st', more) := yield start st in
        if more then RangeX_up rounds' (num_add start step) end_ step st'
        else Returned st'
    end
  else Returned st.

(** [for ; start > end; start -= step { if !yield(start) { return } }] *)
Fixpoint RangeX_down (rounds : nat) (start end_ step : N) (st : St)
  : outcome St :=
  if num_lt end_ start then
    match rounds with
    | O => Running st
    | S rounds' =>
        let (st', more) := yield start st in
        if more then RangeX_down rounds' (num_sub start step) end_ step st'
        else Returned st'
    end
  else Returned st.
End Loops.

Definition RangeX (start end_ step : N) : result (Seq N) :=
  if num_le step (num_const 0%Z) then Panicked "step size must be > 0"%string
  else Ok (fun St yield st rounds =>
             if num_le start end_
             then RangeX_up yield rounds start end_ step st
             else RangeX_down yield rounds start end_ step st).

Definition Range (start end_ : N) : result (Seq N) :=
  RangeX start end_ (num_const 1%Z).
End RangeX.

(** ** Spans *)

Section Spans.
Context {T : Type}.

(** [len(slice)] as a Go [int]. *)
Definition len (slice : list T) : Z := Z.of_nat (length slice).

(** The slice expression [slice[lo:hi]]; [None] is Go's run-time panic
    for bounds out of range. *)
Definition slice_expr (slice : list T) (lo hi : Z) : option (list T) :=
  if ((0 <=? lo)%Z && (lo <=? hi)%Z && (hi <=? len slice)%Z)%bool
  then Some (take (Z.to_nat (hi - lo)) (drop (Z.to_nat lo) slice))
  else None.

Section Loop.
Context {St : Type}.
Variable yield : Yield (list T * bool) St.

(** [for i := 0; i < len(slice); i += stride { ... }] from [i] on. *)
Fixpoint Spans_loop (rounds : nat) (slice : list T) (stride i : Z) (st : St)
  : outcome St :=
  if (i <? len slice)%Z then
    match rounds with
    | O => Running st
    | S rounds' =>
        match slice_expr slice i (Z.min (i + stride) (len slice)) with
        | None => Panic "slice bounds out of range"%string
        | Some subslice =>
            let (st', more) :=
              yield (subslice, (len subslice =? stride)%Z) st in
            if more then Spans_loop rounds' slice stride (i + stride)%Z st'
            else Returned st'
        end
    end
  else Returned st.
End Loop.

Definition Spans (slice : list T) (stride : Z) : result (Seq2 (list T) bool) :=
  if (stride <=? 0)%Z then Panicked "stride must be > 0"%string
  else Ok (fun St yield st rounds => Spans_loop yield rounds slice stride 0%Z st).
End Spans.

(** ** Zip *)

Section Zip.
Context {E St : Type}.
Variable yield : Yield (list E) St.

(** One pass of [for _, pull := range pulls] building [row]; [None] is
    the [return] taken when a source is done. *)
Fixpoint Zip_round (pulls : list (PullHandle E)) (row : list E)
  : option (list E * list (PullHandle E)) :=
  match pulls with
  | [] => Some (row, [])
  | h :: rest =>
      match pull h with
      | (Some element, h') =>
          match Zip_round rest (row ++ [element]) with
          | Some (row', rest') => Some (row', h' :: rest')
          | None => None
          end
      | (None, _) => None
      end
  end.

(** [for { ... }] *)
Fixpoint Zip_loop (rounds : nat) (pulls : list (PullHandle E)) (st : St)
  : outcome St :=
  match rounds with
  | O => Running st
  | S rounds' =>
      match Zip_round pulls [] with
      | None => Returned st
      | Some (row, pulls') =>
          let (st', more) := yield row st in
          if more then Zip_loop rounds' pulls' st' else Returned st'
      end
  end.
End Zip.

Definition Zip {E : Type} (rfns : list (list E)) : Seq (list E) :=
  fun St yield st rounds => Zip_loop yield rounds (map Pull rfns) st.

(** ** ZipLongest *)

Section ZipLongest.
Context {E St : Type}.
Variable zero : E.                    (* [var zero E] *)
Variable yield : Yield (list E) St.

(** One pass of [for _, pull := range pulls]: the row, the number of
    sources that delivered an element, and the handles afterwards. *)
Fixpoint ZipLongest_round (pulls : list (PullHandle E)) (row : list E)
         (oks : nat) : list E * nat * list (PullHandle E) :=
  match pulls with
  | [] => (row, oks, [])
  | h :: rest =>
      match pull h with
      | (Some element, h') =>
          let '(row', oks', rest') :=
            ZipLongest_round rest (row ++ [element]) (S oks) in
          (row', oks', h' :: rest')
      | (None, h') =>
          let '(row', oks', rest') :=
            ZipLongest_round rest (row ++ [zero]) oks in
          (row', oks', h' :: rest')
      end
  end.

(** [for { ...; if oks == 0 || !yield(row) { return } }] *)
Fixpoint ZipLongest_loop (rounds : nat) (pulls : list (PullHandle E)) (st : St)
  : outcome St :=
  match rounds with
  | O => Running st
  | S rounds' =>
      let '(row, oks, pulls') := ZipLongest_round pulls [] 0 in
      if oks =? 0 then Returned st
      else
        let (st', more) := yield row st in
        if more then ZipLongest_loop rounds' pulls' st' else Returned st'
  end.
End ZipLongest.

Definition ZipLongest {E : Type} (zero : E) (rfns : list (list E))
  : Seq (list E) :=
  fun St yield st rounds => ZipLongest_loop zero yield rounds (map Pull rfns) st.

(** Running a call result: the elements of the sequence it returned. *)
Definition elements {T : Type} (r : result (Seq T)) (rounds : nat)
  : result (outcome (list T)) :=
  match r with
  | Ok s => Ok (to_list s rounds)
  | Panicked msg => Panicked msg
  end.

(** ** HasPrefix, HasSuffix, LastIndex, LastIndexFunc *)

(** Go's [comparable] is taken as a type with decidable equality; an
    index expression [values[i]] out of range is Go's run-time panic. *)
Section Scanners.
Context {E : Type} `{EqDecision E}.

(** [values[i]] for a Go [int] index. *)
Definition index (values : list E) (i : Z) : option E :=
  if (i <? 0)%Z then None else values !! Z.to_nat i.

(** [for i := range len(prefix) { ... }] from [i] on, [n] indices left. *)
Fixpoint HasPrefix_loop (n i : nat) (values prefix : list E) : result bool :=
  match n with
  | O => Ok true
  | S n' =>
      if i =? length values then Ok false
      else
        match values !! i, prefix !! i with
        | Some v, Some p =>
            if bool_decide (v <> p) then Ok false
            else HasPrefix_loop n' (S i) values prefix
        | _, _ => Panicked "index out of range"%string
        end
  end.

Definition HasPrefix (values prefix : list E) : result bool :=
  HasPrefix_loop (length prefix) 0 values prefix.

(** [for i := len(suffix) - 1; i >= 0; i-- { ...; j-- }]; [k] is [i + 1]. *)
Fixpoint HasSuffix_loop (k : nat) (j : Z) (values suffix : list E)
  : result bool :=
  match k with
  | O => Ok true
  | S i =>
      match index values j, suffix !! i with
      | Some v, Some s =>
          if bool_decide (v <> s) then Ok false
          else HasSuffix_loop i (j - 1)%Z values suffix
      | _, _ => Panicked "index out of range"%string
      end
  end.

Definition HasSuffix (values suffix : list E) : result bool :=
  if length values <? length suffix then Ok false
  else HasSuffix_loop (length suffix) (Z.of_nat (length values) - 1)%Z
                      values suffix.

(** [for i := len(values) - 1; i >= 0; i-- { ... }]; [k] is [i + 1]. *)
Fixpoint LastIndex_loop (k : nat) (values : list E) (value : E) : result Z :=
  match k with
  | O => Ok (-1)%Z
  | S i =>
      match values !! i with
      | Some v =>
          if bool_decide (v = value) then Ok (Z.of_nat i)
          else LastIndex_loop i values value
      | None => Panicked "index out of range"%string
      end
  end.

Definition LastIndex (values : list E) (value : E) : result Z :=
  LastIndex_loop (length values) values value.
End Scanners.

Section LastIndexFunc.
Context {E : Type}.

Fixpoint LastIndexFunc_loop (k : nat) (values : list E) (found : E -> bool)
  : result Z :=
  match k with
  | O => Ok (-1)%Z
  | S i =>
      match values !! i with
      | Some v =>
          if found v then Ok (Z.of_nat i)
          else LastIndexFunc_loop i values found
      | None => Panicked "index out of range"%string
      end
  end.

Definition LastIndexFunc (values : list E) (found : E -> bool) : result Z :=
  LastIndexFunc_loop (length values) values found.
End LastIndexFunc.

(** ** Map *)

Section Map.
Context {A T St : Type}.
Variable mapper : A -> T * bool.
Variable yield : Yield T St.

(** [for _, source := range sources { ... }]; the boolean tells whether
    the loop ran to its end ([false]: left by the [return]). *)
Fixpoint Map_loop (sources : list A) (st : St) : St * bool :=
  match sources with
  | [] => (st, true)
  | source :: rest =>
      let (target, ok) := mapper source in
      if ok then
        let (st', more) := yield target st in
        if more then Map_loop rest st' else (st', false)
      else Map_loop rest st
  end.
End Map.

(** The loop of Map ranges over a slice, so it needs no bound on its
    rounds. *)
Definition Map {A T : Type} (sources : list A) (mapper : A -> T * bool)
  : Seq T :=
  fun St yield st _ => Returned (fst (Map_loop mapper yield sources st)).

(** What the mapper keeps of a source. *)
Definition kept {A T : Type} (mapper : A -> T * bool) (source : A) : option T :=
  let (target, ok) := mapper source in if ok then Some target else None.

(** ** Auxiliary functions used to describe single rounds *)

(** One sweep of Merge on arbitrary flags and handles: what is yielded,
    and the handles and flags afterwards. *)
Definition sweep_yields {E : Type} (oks : list bool) (pulls : list (list E))
  : list E :=
  concat (zip_with (fun (ok : bool) h => if ok then option_list (head h) else [])
                   oks pulls).

Definition sweep_pulls {E : Type} (oks : list bool) (pulls : list (list E))
  : list (list E) :=
  zip_with (fun (ok : bool) h => if ok then tail h else h) oks pulls.

Definition sweep_oks {E : Type} (oks : list bool) (pulls : list (list E))
  : list bool :=
  zip_with (fun (ok : bool) (h : list E) =>
              ok && match h with [] => false | _ :: _ => true end) oks pulls.

(** A flag may only be down on a handle that has nothing left. *)
Definition flags_sound {E : Type} (oks : list bool) (pulls : list (list E))
  : Prop :=
  Forall2 (fun (ok : bool) (h : list E) => ok = false -> h = []) oks pulls.

(** The length of the shortest source (of at least one). *)
Fixpoint min_len {E : Type} (rfns : list (list E)) : nat :=
  match rfns with
  | [] => 0
  | rfn :: rest =>
      match rest with
      | [] => length rfn
      | _ :: _ => Nat.min (length rfn) (min_len rest)
      end
  end.

(** Row [i] of ZipLongest in the specification's words: element [i] of
    every source, the zero value for a source that has none. *)
Definition padded_row {E : Type} (zero : E) (rfns : list (list E)) (i : nat)
  : list E :=
  map (fun rfn => default zero (rfn !! i)) rfns.



(** The arithmetic progression the loops of RangeX walk through:
    [start], [next start], [next (next start)], ... ([n] values). *)
Fixpoint progression {N : Type} (next : N -> N) (start : N) (n : nat) : list N :=
  match n with
  | O => []
  | S n' => start :: progression next (next start) n'
  end.

(** Exact arithmetic: the numbers are rationals and the operations of
    [SignedNumber] are the rational ones (no rounding, no wrap-around). *)
Class ExactNumber (N : Type) `{SignedNumber N} : Type := {
  toQ : N -> Q;
  toQ_const : forall z, (toQ (num_const z) == inject_Z z)%Q;
  toQ_le : forall a b, num_le a b = true <-> (toQ a <= toQ b)%Q;
  toQ_lt : forall a b, num_lt a b = true <-> (toQ a < toQ b)%Q;
  toQ_add : forall a b, (toQ (num_add a b) == toQ a + toQ b)%Q;
  toQ_sub : forall a b, (toQ (num_sub a b) == toQ a - toQ b)%Q
}.

(** What RangeX yields in exact arithmetic for a positive step. *)
Definition RangeX_values {N : Type} `{ExactNumber N} (start end_ step : N)
  : list N :=
  if num_le start end_
  then progression (fun x => num_add x step) start
         (Z.to_nat (Qceiling ((toQ end_ - toQ start) / toQ step)))
  else progression (fun x => num_sub x step) start
         (Z.to_nat (Qceiling ((toQ start - toQ end_) / toQ step))).

(** * Properties *)

(** ** Consumers *)

Lemma feed_app {T St : Type} (yield : Yield T St) (xs ys : list T) (st : St) :
  feed yield (xs ++ ys) st =
  (let (st', more) := feed yield xs st in
   if more then feed yield ys st' else (st', false)).
Proof.
  revert st. induction xs as [|x xs IH]; intros st; simpl.
  - reflexivity.
  - destruct (yield x st) as [st1 [|]]; [apply IH | reflexivity].
Qed.

Lemma feed_collect {T : Type} (xs acc : list T) :
  feed collect xs acc = (acc ++ xs, true).
Proof.
  revert acc. induction xs as [|x xs IH]; intros acc; simpl.
  - by rewrite app_nil_r.
  - rewrite IH. by rewrite <- app_assoc.
Qed.

(** ** Merge *)

(** Updates of a one-element list whose index is [0] up to arithmetic. *)
Ltac insert_at_0 :=
  repeat match goal with
         | |- context [ <[?k:=_]> [_] ] => progress replace k with 0 by lia
         end;
  simpl.

Section MergeFacts.
Context {E St : Type}.
Variable yield : Yield E St.

Lemma Merge_sweep_spec (n i : nat) (pulls : list (list E)) (oks : list bool)
      (st : St) :
  length oks = length pulls ->
  i + n = length pulls ->
  Merge_sweep yield n i pulls oks st =
  (let (st', more) :=
     feed yield (sweep_yields (drop i oks) (drop i pulls)) st in
   if more
   then SweepDone (take i pulls ++ sweep_pulls (drop i oks) (drop i pulls))
                  (take i oks ++ sweep_oks (drop i oks) (drop i pulls)) st'
   else SweepReturn st').
Proof.
  revert i pulls oks st.
  induction n as [|n IH]; intros i pulls oks st Hlen Hi.
  - rewrite !drop_ge, !take_ge by lia. simpl. by rewrite !app_nil_r.
  - destruct (lookup_lt_is_Some_2 pulls i) as [h Hh]; [lia|].
    destruct (lookup_lt_is_Some_2 oks i) as [ok Hok]; [lia|].
    rewrite (drop_S _ _ _ Hh), (drop_S _ _ _ Hok).
    cbn [Merge_sweep]. rewrite Hh, Hok.
    unfold sweep_yields, sweep_pulls, sweep_oks. cbn [zip_with concat].
    destruct ok; [destruct h as [|x h']; cbn|].
    + (* the pull reports the end: the flag goes down *)
      rewrite IH by (rewrite ?length_insert; lia).
      rewrite !drop_insert_lt by lia.
      unfold sweep_yields, sweep_pulls, sweep_oks.
      destruct (feed _ _ st) as [st' [|]]; [|reflexivity].
      rewrite !take_insert_lt by lia.
      rewrite (take_S_r _ _ _ Hh), (take_S_r _ _ _ Hok).
      rewrite !insert_app_r_alt, !length_take by (rewrite length_take; lia).
      insert_at_0. by rewrite <- !app_assoc.
    + (* an element is pulled and yielded *)
      destruct (yield x st) as [st1 [|]]; [|reflexivity].
      rewrite IH by (rewrite ?length_insert; lia).
      rewrite !drop_insert_lt by lia.
      unfold sweep_yields, sweep_pulls, sweep_oks.
      destruct (feed _ _ st1) as [st' [|]]; [|reflexivity].
      rewrite !take_insert_lt by lia.
      rewrite (take_S_r _ _ _ Hh), (take_S_r _ _ _ Hok).
      rewrite !insert_app_r_alt, !length_take by (rewrite length_take; lia).
      insert_at_0. by rewrite <- !app_assoc.
    + (* the source was found exhausted in an earlier sweep *)
      rewrite IH by lia.
      unfold sweep_yields, sweep_pulls, sweep_oks.
      destruct (feed _ _ st) as [st' [|]]; [|reflexivity].
      rewrite (take_S_r _ _ _ Hh), (take_S_r _ _ _ Hok).
      by rewrite <- !app_assoc.
Qed.
End MergeFacts.

Section RoundRobin.
Context {E : Type}.
Implicit Types pulls rfns : list (list E).

Lemma max_len_0_all_nil rfns :
  max_list_with length rfns = 0 -> Forall (fun rfn => rfn = []) rfns.
Proof.
  induction rfns as [|rfn rfns IH]; simpl; intros Hm; constructor.
  - destruct rfn; [done | simpl in Hm; lia].
  - apply IH. lia.
Qed.

Lemma sweep_elements_all_nil rfns r :
  Forall (fun rfn => rfn = []) rfns -> sweep_elements rfns r = [].
Proof.
  unfold sweep_elements.
  induction 1 as [|rfn rfns -> _ IH]; simpl; [done|].
  by rewrite IH.
Qed.

Lemma max_len_tail rfns :
  max_list_with length (map tail rfns) = pred (max_list_with length rfns).
Proof.
  induction rfns as [|rfn rfns IH]; simpl; [done|].
  rewrite IH. destruct rfn; simpl; lia.
Qed.

Lemma sweep_elements_tail rfns r :
  sweep_elements (map tail rfns) r = sweep_elements rfns (S r).
Proof.
  unfold sweep_elements.
  induction rfns as [|rfn rfns IH]; simpl; [done|].
  rewrite IH. by destruct rfn.
Qed.

Lemma round_robin_unfold rfns :
  round_robin rfns = sweep_elements rfns 0 ++ round_robin (map tail rfns).
Proof.
  unfold round_robin. rewrite max_len_tail.
  destruct (max_list_with length rfns) as [|m] eqn:Hm; simpl.
  - by rewrite sweep_elements_all_nil by by apply max_len_0_all_nil.
  - f_equal. rewrite <- seq_shift, flat_map_concat_map, map_map.
    rewrite flat_map_concat_map. f_equal.
    apply map_ext. intros r. by rewrite sweep_elements_tail.
Qed.

Lemma round_robin_all_nil rfns :
  Forall (fun rfn => rfn = []) rfns -> round_robin rfns = [].
Proof.
  intros Hnil. unfold round_robin.
  induction (seq 0 _) as [|r rs IH]; simpl; [done|].
  by rewrite sweep_elements_all_nil, IH.
Qed.

Lemma sum_lengths_tail rfns :
  sum_list (map length rfns) =
  length (sweep_elements rfns 0) + sum_list (map length (map tail rfns)).
Proof.
  unfold sweep_elements.
  induction rfns as [|rfn rfns IH]; simpl; [done|].
  rewrite length_app, IH. destruct rfn; simpl; lia.
Qed.

Lemma round_robin_length rfns :
  length (round_robin rfns) = sum_list (map length rfns).
Proof.
  remember (max_list_with length rfns) as m eqn:Hm.
  revert rfns Hm. induction m as [|m IH]; intros rfns Hm.
  - assert (Hnil : Forall (fun rfn => rfn = []) rfns)
      by by apply max_len_0_all_nil.
    rewrite round_robin_all_nil by done.
    clear Hm. induction Hnil as [|rfn rfns -> _ IH']; simpl; [done|].
    by rewrite <- IH'.
  - rewrite round_robin_unfold, length_app, sum_lengths_tail.
    f_equal. apply IH. rewrite max_len_tail. lia.
Qed.

(** Under [flags_sound] a sweep takes the head of every handle. *)
Lemma sweep_yields_sound oks pulls :
  flags_sound oks pulls -> sweep_yields oks pulls = sweep_elements pulls 0.
Proof.
  unfold sweep_yields, sweep_elements.
  induction 1 as [|ok h oks pulls Hok _ IH]; simpl; [done|].
  rewrite IH. destruct ok; [by destruct h|].
  by rewrite Hok.
Qed.

Lemma sweep_pulls_sound oks pulls :
  flags_sound oks pulls -> sweep_pulls oks pulls = map tail pulls.
Proof.
  unfold sweep_pulls.
  induction 1 as [|ok h oks pulls Hok _ IH]; simpl; [done|].
  rewrite IH. destruct ok; [done|]. by rewrite Hok.
Qed.

Lemma sweep_oks_sound oks pulls :
  flags_sound oks pulls -> flags_sound (sweep_oks oks pulls) (map tail pulls).
Proof.
  unfold sweep_oks.
  induction 1 as [|ok h oks pulls Hok _ IH]; simpl; constructor; [|done].
  destruct ok; simpl; [|by intros _; rewrite Hok].
  destruct h as [|x [|y h]]; simpl; done.
Qed.

Lemma Contains_true_false oks pulls :
  flags_sound oks pulls -> Contains_true oks = false ->
  Forall (fun rfn => rfn = []) pulls.
Proof.
  induction 1 as [|ok h oks pulls Hok _ IH]; simpl; intros Hc; constructor.
  - apply Hok. by destruct ok.
  - apply IH. by destruct ok.
Qed.

Lemma Contains_true_sweep_oks oks pulls :
  Contains_true (sweep_oks oks pulls) = true ->
  0 < max_list_with length pulls.
Proof.
  unfold sweep_oks. revert pulls.
  induction oks as [|ok oks IH]; intros [|h pulls]; simpl; try done.
  destruct ok, h; simpl; try lia; intros Hc; specialize (IH _ Hc); lia.
Qed.
End RoundRobin.

Section MergeLoop.
Context {E St : Type}.
Variable yield : Yield E St.

(** The outer loop hands the consumer the round-robin interleaving of
    what the handles still hold; [max length + 1] sweeps are enough, the
    last one finding every source exhausted. *)
Lemma Merge_loop_spec (rounds : nat) (pulls : list (list E))
      (oks : list bool) (st : St) :
  flags_sound oks pulls ->
  (Contains_true oks = true -> max_list_with length pulls < rounds) ->
  Merge_loop yield rounds pulls oks st =
  Returned (fst (feed yield (round_robin pulls) st)).
Proof.
  revert pulls oks st.
  induction rounds as [|rounds IH]; intros pulls oks st Hsound Hrounds.
  - simpl. destruct (Contains_true oks) eqn:Hc; [lia|].
    by rewrite round_robin_all_nil by by eapply Contains_true_false.
  - simpl. destruct (Contains_true oks) eqn:Hc.
    + rewrite Merge_sweep_spec
        by (rewrite ?(Forall2_length _ _ _ Hsound); simpl; lia).
      rewrite !drop_0, !take_0. simpl.
      rewrite sweep_yields_sound, sweep_pulls_sound by done.
      rewrite round_robin_unfold, feed_app.
      destruct (feed yield (sweep_elements pulls 0) st) as [st' [|]];
        [|done].
      apply IH; [by apply sweep_oks_sound|].
      intros Hc'. apply Contains_true_sweep_oks in Hc'.
      rewrite max_len_tail. specialize (Hrounds eq_refl). lia.
    + by rewrite round_robin_all_nil by by eapply Contains_true_false.
Qed.
End MergeLoop.

Lemma Merge_spec {E St : Type} (rfns : list (list E)) (yield : Yield E St)
      (st : St) (rounds : nat) :
  max_list_with length rfns < rounds ->
  Merge rfns St yield st rounds =
  Returned (fst (feed yield (round_robin rfns) st)).
Proof.
  intros Hrounds. unfold Merge, Pull. rewrite map_id.
  apply Merge_loop_spec; [|done].
  unfold flags_sound. induction rfns; simpl; constructor; [done|].
  apply IHrfns. simpl in Hrounds. lia.
Qed.

(** C2: for finite sources, Merge yields the round-robin interleaving of
    the sources (sweep after sweep, one element from every source that
    still has one, in source order), [len(a)+len(b)+...] elements in all;
    with three sources of at least two elements the first four yielded
    are [a0, b0, c0, a1]. *)
Theorem Merge_round_robin {E : Type} (rfns : list (list E)) (rounds : nat) :
  max_list_with length rfns < rounds ->
  to_list (Merge rfns) rounds = Returned (round_robin rfns) /\
  length (round_robin rfns) = sum_list (map length rfns) /\
  (forall a0 a1 a b0 b1 b c0 c1 c,
      rfns = [a0 :: a1 :: a; b0 :: b1 :: b; c0 :: c1 :: c] ->
      take 4 (round_robin rfns) = [a0; b0; c0; a1]).
Proof.
  intros Hrounds. split; [|split].
  - unfold to_list. rewrite Merge_spec by done.
    by rewrite feed_collect.
  - apply round_robin_length.
  - intros a0 a1 a b0 b1 b c0 c1 c ->.
    rewrite round_robin_unfold, (round_robin_unfold (map tail _)).
    reflexivity.
Qed.

Lemma Merge_round_robin_witness :
  max_list_with length [[0; 1; 2]; [10]; [20; 21]] < 4 /\
  to_list (Merge [[0; 1; 2]; [10]; [20; 21]]) 4
  = Returned [0; 10; 20; 1; 21; 2].
Proof.
  split; [vm_compute; lia|].
  apply (Merge_round_robin [[0; 1; 2]; [10]; [20; 21]] 4).
  vm_compute; lia.
Defined.

(** C10: Merge of no sources is the empty sequence: whatever the
    consumer, the range function returns at once and [yield] is never
    called. *)
Theorem Merge_no_sources {E St : Type} (yield : Yield E St) (st : St)
        (rounds : nat) :
  Merge (@nil (list E)) St yield st rounds = Returned st /\
  to_list (Merge (@nil (list E))) rounds = Returned [].
Proof. by destruct rounds. Qed.

(** ** Zip *)

Section ZipFacts.
Context {E : Type}.
Implicit Types pulls rfns : list (list E).

Lemma Zip_round_Some pulls row :
  Forall (fun h => h <> []) pulls ->
  Zip_round pulls row = Some (row ++ sweep_elements pulls 0, map tail pulls).
Proof.
  unfold sweep_elements. intros Hall. revert row.
  induction Hall as [|h pulls Hh _ IH]; intros row; simpl.
  - by rewrite app_nil_r.
  - destruct h as [|x h]; [done|]. simpl.
    rewrite IH. by rewrite <- app_assoc.
Qed.

Lemma Zip_round_None pulls row :
  Exists (fun h => h = []) pulls -> Zip_round pulls row = None.
Proof.
  intros Hex. revert row.
  induction Hex as [h pulls ->|h pulls _ IH]; intros row; simpl; [done|].
  destruct h as [|x h]; simpl; [done|]. by rewrite IH.
Qed.

Lemma min_len_le rfns rfn : rfn ∈ rfns -> min_len rfns <= length rfn.
Proof.
  induction rfns as [|r [|r' rest] IH]; intros Hin.
  - by apply elem_of_nil in Hin.
  - apply list_elem_of_singleton in Hin as ->. done.
  - apply elem_of_cons in Hin as [->|Hin].
    + change (Nat.min (length r) (min_len (r' :: rest)) <= length r). lia.
    + specialize (IH Hin).
      change (Nat.min (length r) (min_len (r' :: rest)) <= length rfn). lia.
Qed.

Lemma min_len_attained rfns :
  rfns <> [] -> exists rfn, rfn ∈ rfns /\ length rfn = min_len rfns.
Proof.
  induction rfns as [|r [|r' rest] IH]; intros Hne; [done| |].
  - exists r. split; [apply list_elem_of_here | done].
  - destruct IH as (rfn & Hin & Hlen); [done|].
    change (min_len (r :: r' :: rest))
      with (Nat.min (length r) (min_len (r' :: rest))).
    destruct (Nat.le_gt_cases (length r) (min_len (r' :: rest))).
    + exists r. split; [apply list_elem_of_here | lia].
    + exists rfn. split; [by apply list_elem_of_further | lia].
Qed.

Lemma min_len_0 rfns :
  rfns <> [] -> min_len rfns = 0 -> Exists (fun h => h = []) rfns.
Proof.
  intros Hne H0. destruct (min_len_attained rfns Hne) as (rfn & Hin & Hlen).
  apply Exists_exists. exists rfn. split; [done|].
  destruct rfn; [done | simpl in Hlen; lia].
Qed.

Lemma min_len_pos rfns :
  0 < min_len rfns -> Forall (fun h => h <> []) rfns.
Proof.
  intros Hpos. apply Forall_forall. intros rfn Hin ->.
  apply min_len_le in Hin. simpl in Hin. lia.
Qed.

Lemma min_len_tail rfns : min_len (map tail rfns) = pred (min_len rfns).
Proof.
  induction rfns as [|r [|r' rest] IH]; [done| |].
  - simpl. by destruct r.
  - change (Nat.min (length (tail r)) (min_len (map tail (r' :: rest)))
            = pred (Nat.min (length r) (min_len (r' :: rest)))).
    rewrite IH. generalize (min_len (r' :: rest)). intros m.
    destruct r, m; simpl; lia.
Qed.

(** Below the shortest length, row [i] holds element [i] of every
    source, in source order. *)
Lemma sweep_elements_full rfns i :
  i < min_len rfns ->
  Forall2 (fun x rfn => rfn !! i = Some x) (sweep_elements rfns i) rfns.
Proof.
  intros Hi.
  assert (Hall : Forall (fun rfn => i < length rfn) rfns).
  { apply Forall_forall. intros rfn Hin. apply min_len_le in Hin. lia. }
  clear Hi. unfold sweep_elements.
  induction Hall as [|rfn rfns Hlt _ IH]; simpl; [constructor|].
  destruct (lookup_lt_is_Some_2 rfn i Hlt) as [x Hx].
  rewrite Hx. simpl. by constructor.
Qed.

Section Loop.
Context {St : Type}.
Variable yield : Yield (list E) St.

Lemma Zip_loop_spec (rounds : nat) pulls (st : St) :
  pulls <> [] ->
  min_len pulls < rounds ->
  Zip_loop yield rounds pulls st =
  Returned
    (fst (feed yield (map (sweep_elements pulls) (seq 0 (min_len pulls))) st)).
Proof.
  revert pulls st.
  induction rounds as [|rounds IH]; intros pulls st Hne Hrounds; [lia|].
  simpl. destruct (min_len pulls) as [|m] eqn:Hm.
  - by rewrite Zip_round_None by by apply min_len_0.
  - rewrite Zip_round_Some by (apply min_len_pos; lia).
    simpl. destruct (yield (sweep_elements pulls 0) st) as [st' [|]];
      [|done].
    rewrite IH.
    + rewrite min_len_tail, Hm. simpl.
      rewrite <- seq_shift, map_map. do 3 f_equal.
      apply map_ext. intros r. by rewrite sweep_elements_tail.
    + by destruct pulls.
    + rewrite min_len_tail. lia.
Qed.
End Loop.
End ZipFacts.

Lemma Zip_spec {E St : Type} (rfns : list (list E)) (yield : Yield (list E) St)
      (st : St) (rounds : nat) :
  rfns <> [] ->
  min_len rfns < rounds ->
  Zip rfns St yield st rounds =
  Returned (fst (feed yield (map (sweep_elements rfns) (seq 0 (min_len rfns))) st)).
Proof.
  intros Hne Hrounds. unfold Zip, Pull. rewrite map_id.
  by apply Zip_loop_spec.
Qed.

(** C5: with at least one source, all finite, Zip yields exactly
    [min(len(a), len(b), ...)] rows, and row [i] holds element [i] of
    every source in source order; so every row is complete, and the round
    in which a source is found exhausted yields nothing. *)
Theorem Zip_rows {E : Type} (rfns : list (list E)) (rounds : nat) :
  rfns <> [] ->
  min_len rfns < rounds ->
  exists rows,
    to_list (Zip rfns) rounds = Returned rows /\
    length rows = min_len rfns /\
    (forall rfn, rfn ∈ rfns -> length rows <= length rfn) /\
    (exists rfn, rfn ∈ rfns /\ length rows = length rfn) /\
    (forall i row, rows !! i = Some row ->
        Forall2 (fun x rfn => rfn !! i = Some x) row rfns).
Proof.
  intros Hne Hrounds.
  exists (map (sweep_elements rfns) (seq 0 (min_len rfns))).
  assert (Hlen : length (map (sweep_elements rfns) (seq 0 (min_len rfns)))
                 = min_len rfns) by by rewrite length_map, length_seq.
  split; [|split; [|split; [|split]]].
  - unfold to_list. rewrite Zip_spec by done. by rewrite feed_collect.
  - done.
  - intros rfn Hin. rewrite Hlen. by apply min_len_le.
  - rewrite Hlen. destruct (min_len_attained rfns Hne) as (rfn & Hin & Hl).
    by exists rfn.
  - intros i row Hrow.
    apply list_lookup_fmap_Some in Hrow as (r & -> & Hr).
    apply lookup_seq in Hr as [-> Hlt]. simpl.
    by apply sweep_elements_full.
Qed.

Lemma Zip_rows_witness :
  [[0; 3; 6; 9]; [1; 4; 7; 10]; [2; 5; 8]] <> [] /\
  min_len [[0; 3; 6; 9]; [1; 4; 7; 10]; [2; 5; 8]] < 4 /\
  exists rows,
    to_list (Zip [[0; 3; 6; 9]; [1; 4; 7; 10]; [2; 5; 8]]) 4 = Returned rows /\
    length rows = 3.
Proof.
  split; [done|]. split; [vm_compute; lia|].
  destruct (Zip_rows [[0; 3; 6; 9]; [1; 4; 7; 10]; [2; 5; 8]] 4)
    as (rows & Hrun & Hlen & _); [done | vm_compute; lia |].
  exists rows. split; [exact Hrun | exact Hlen].
Defined.

Section ZipNoSources.
Context {E : Type}.

Lemma Zip_loop_nil_collect (rounds : nat) (acc : list (list E)) :
  Zip_loop collect rounds [] acc = Running (acc ++ replicate rounds []).
Proof.
  revert acc. induction rounds as [|rounds IH]; intros acc; simpl.
  - by rewrite app_nil_r.
  - rewrite IH. by rewrite <- app_assoc.
Qed.

Lemma Zip_loop_nil_upto (k rounds : nat) (acc : list (list E)) :
  length acc + S rounds = k ->
  Zip_loop (collect_upto k) (S rounds) [] acc
  = Returned (acc ++ replicate (S rounds) []).
Proof.
  revert acc. induction rounds as [|rounds IH]; intros acc Hk.
  - simpl. rewrite length_app. simpl.
    destruct (Nat.ltb_spec (length acc + 1) k); [lia | done].
  - change (Zip_loop (collect_upto k) (S (S rounds)) [] acc)
      with (let (st', more) := collect_upto k [] acc in
            if more then Zip_loop (collect_upto k) (S rounds) [] st'
            else Returned st').
    unfold collect_upto at 1. rewrite length_app. simpl length.
    destruct (Nat.ltb_spec (length acc + 1) k); [|lia].
    rewrite IH by (rewrite length_app; simpl; lia).
    by rewrite <- app_assoc.
Qed.
End ZipNoSources.

(** C1 (what the code does instead): with no sources the loop of Zip
    never finds an exhausted source; it yields an empty row in every
    round, for as long as the consumer keeps asking. *)
Theorem Zip_no_sources_unbounded {E : Type} (k : nat) :
  to_list (Zip (@nil (list E))) k = Running (replicate k []) /\
  first_n (S k) (Zip (@nil (list E))) (S k) = Returned (replicate (S k) []).
Proof.
  split.
  - unfold to_list, Zip. simpl map. by rewrite Zip_loop_nil_collect.
  - unfold first_n, Zip. simpl map. by rewrite Zip_loop_nil_upto.
Qed.

(** ** ZipLongest *)

Section ZipLongestFacts.
Context {E : Type}.
Variable zero : E.
Implicit Types pulls rfns : list (list E).

Lemma padded_row_tail rfns i :
  padded_row zero (map tail rfns) i = padded_row zero rfns (S i).
Proof.
  unfold padded_row. rewrite map_map. apply map_ext.
  intros rfn. by destruct rfn.
Qed.

Lemma ZipLongest_round_spec pulls row oks :
  ZipLongest_round zero pulls row oks =
  (row ++ padded_row zero pulls 0,
   oks + length (sweep_elements pulls 0),
   map tail pulls).
Proof.
  unfold padded_row, sweep_elements. revert row oks.
  induction pulls as [|h pulls IH]; intros row oks; simpl.
  - by rewrite app_nil_r, Nat.add_0_r.
  - destruct h as [|x h]; simpl; rewrite IH, <- app_assoc; simpl;
      repeat f_equal; lia.
Qed.

Lemma sweep_elements_max_len pulls :
  length (sweep_elements pulls 0) = 0 <-> max_list_with length pulls = 0.
Proof.
  unfold sweep_elements.
  induction pulls as [|h pulls IH]; simpl; [done|].
  rewrite length_app. destruct h; simpl; lia.
Qed.

Section Loop.
Context {St : Type}.
Variable yield : Yield (list E) St.

Lemma ZipLongest_loop_spec (rounds : nat) pulls (st : St) :
  max_list_with length pulls < rounds ->
  ZipLongest_loop zero yield rounds pulls st =
  Returned
    (fst (feed yield (map (padded_row zero pulls)
                          (seq 0 (max_list_with length pulls))) st)).
Proof.
  revert pulls st.
  induction rounds as [|rounds IH]; intros pulls st Hrounds; [lia|].
  simpl. rewrite ZipLongest_round_spec. simpl.
  destruct (Nat.eqb_spec (length (sweep_elements pulls 0)) 0) as [H0|H0].
  - apply sweep_elements_max_len in H0. by rewrite H0.
  - rewrite sweep_elements_max_len in H0.
    destruct (max_list_with length pulls) as [|m] eqn:Hm; [done|].
    simpl. destruct (yield (padded_row zero pulls 0) st) as [st' [|]];
      [|done].
    rewrite IH by (rewrite max_len_tail; lia).
    rewrite max_len_tail, Hm. simpl.
    rewrite <- seq_shift, map_map. do 3 f_equal.
    apply map_ext. intros r. by rewrite padded_row_tail.
Qed.
End Loop.
End ZipLongestFacts.

Lemma ZipLongest_spec {E St : Type} (zero : E) (rfns : list (list E))
      (yield : Yield (list E) St) (st : St) (rounds : nat) :
  max_list_with length rfns < rounds ->
  ZipLongest zero rfns St yield st rounds =
  Returned
    (fst (feed yield (map (padded_row zero rfns)
                          (seq 0 (max_list_with length rfns))) st)).
Proof.
  intros Hrounds. unfold ZipLongest, Pull. rewrite map_id.
  by apply ZipLongest_loop_spec.
Qed.

Lemma max_len_ge {E : Type} (rfns : list (list E)) (rfn : list E) :
  rfn ∈ rfns -> length rfn <= max_list_with length rfns.
Proof.
  induction rfns as [|r rfns IH]; intros Hin.
  - by apply elem_of_nil in Hin.
  - apply elem_of_cons in Hin as [->|Hin]; simpl; [lia|].
    specialize (IH Hin). lia.
Qed.

Lemma max_len_attained {E : Type} (rfns : list (list E)) :
  rfns <> [] -> exists rfn, rfn ∈ rfns /\ length rfn = max_list_with length rfns.
Proof.
  induction rfns as [|r [|r' rest] IH]; intros Hne; [done| |].
  - exists r. split; [apply list_elem_of_here | simpl; lia].
  - destruct IH as (rfn & Hin & Hlen); [done|].
    change (max_list_with length (r :: r' :: rest))
      with (Nat.max (length r) (max_list_with length (r' :: rest))).
    destruct (Nat.le_gt_cases (max_list_with length (r' :: rest)) (length r)).
    + exists r. split; [apply list_elem_of_here | lia].
    + exists rfn. split; [by apply list_elem_of_further | lia].
Qed.

(** C4: for finite sources ZipLongest yields exactly
    [max(len(a), len(b), ...)] rows (none without sources); row [i] has,
    for every source in source order, its element [i] when it has one and
    the zero value otherwise; the round in which no source delivers is
    not yielded. *)
Theorem ZipLongest_rows {E : Type} (zero : E) (rfns : list (list E))
        (rounds : nat) :
  max_list_with length rfns < rounds ->
  exists rows,
    to_list (ZipLongest zero rfns) rounds = Returned rows /\
    length rows = max_list_with length rfns /\
    (forall rfn, rfn ∈ rfns -> length rfn <= length rows) /\
    (rfns <> [] -> exists rfn, rfn ∈ rfns /\ length rfn = length rows) /\
    (rfns = [] -> rows = []) /\
    (forall i row, rows !! i = Some row ->
        Forall2 (fun x rfn =>
                   (i < length rfn -> rfn !! i = Some x) /\
                   (length rfn <= i -> x = zero)) row rfns).
Proof.
  intros Hrounds.
  exists (map (padded_row zero rfns) (seq 0 (max_list_with length rfns))).
  assert (Hlen : length (map (padded_row zero rfns)
                             (seq 0 (max_list_with length rfns)))
                 = max_list_with length rfns) by by rewrite length_map, length_seq.
  split; [|split; [|split; [|split; [|split]]]].
  - unfold to_list. rewrite ZipLongest_spec by done. by rewrite feed_collect.
  - done.
  - intros rfn Hin. rewrite Hlen. by apply max_len_ge.
  - intros Hne. rewrite Hlen. by apply max_len_attained.
  - by intros ->.
  - intros i row Hrow.
    apply list_lookup_fmap_Some in Hrow as (r & -> & Hr).
    apply lookup_seq in Hr as [-> _]. simpl.
    unfold padded_row. clear. induction rfns as [|rfn rfns IH]; simpl;
      constructor; [|done].
    split.
    + intros Hlt. destruct (lookup_lt_is_Some_2 rfn i Hlt) as [x Hx].
      by rewrite Hx.
    + intros Hge. by rewrite (lookup_ge_None_2 rfn i Hge).
Qed.

Lemma ZipLongest_rows_witness :
  max_list_with length [[0; 3; 6; 9]; [1; 4; 7; 10]; [2; 5; 8]] < 5 /\
  exists rows,
    to_list (ZipLongest 0 [[0; 3; 6; 9]; [1; 4; 7; 10]; [2; 5; 8]]) 5
    = Returned rows /\
    length rows = 4.
Proof.
  split; [vm_compute; lia|].
  destruct (ZipLongest_rows 0 [[0; 3; 6; 9]; [1; 4; 7; 10]; [2; 5; 8]] 5)
    as (rows & Hrun & Hlen & _); [vm_compute; lia|].
  exists rows. split; [exact Hrun | exact Hlen].
Defined.

(** C9: ZipLongest of no sources is the empty sequence: the first round
    finds no source that delivers, and the range function returns
    without calling [yield]. *)
Theorem ZipLongest_no_sources {E St : Type} (zero : E)
        (yield : Yield (list E) St) (st : St) (rounds : nat) :
  ZipLongest zero [] St yield st (S rounds) = Returned st /\
  to_list (ZipLongest zero []) (S rounds) = Returned [].
Proof. done. Qed.

(** ** Reduce *)

Lemma Reduce_app {E A : Type} (xs ys : list E) (reduce : E -> A -> A) (acc : A) :
  Reduce (xs ++ ys) reduce acc = Reduce ys reduce (Reduce xs reduce acc).
Proof.
  revert acc. induction xs as [|x xs IH]; intros acc; simpl; [done|].
  apply IH.
Qed.

(** C8: Reduce is the left-to-right fold that starts from [initial] and
    replaces the accumulator by [combine element accumulator], element
    first and accumulator second: nothing is done for the empty list, and
    one more element at the end is combined last. *)
Theorem Reduce_left_fold {E A : Type} (elements : list E)
        (combine : E -> A -> A) (initial : A) :
  Reduce elements combine initial = Reduce_spec elements combine initial /\
  Reduce [] combine initial = initial /\
  (forall element,
      Reduce (elements ++ [element]) combine initial
      = combine element (Reduce elements combine initial)).
Proof.
  split; [|split].
  - unfold Reduce_spec. revert initial.
    induction elements as [|e elements IH]; intros initial; simpl; [done|].
    apply IH.
  - done.
  - intros element. by rewrite Reduce_app.
Qed.

(** The argument order matters: subtraction folded over [1; 2; 3]. *)
Example Reduce_not_commutative :
  Reduce [1; 2; 3]%Z (fun element acc => element - acc)%Z 0%Z = 2%Z /\
  fold_left (fun acc element => acc - element)%Z [1; 2; 3]%Z 0%Z = (-6)%Z.
Proof. done. Qed.

(** ** Spans *)

Section SpansFacts.
Context {T : Type}.
Implicit Types slice l : list T.






Section Loop.
Context {St : Type}.
Variable yield : Yield (list T * bool) St.


End Loop.
End SpansFacts.



(** ** Exact number types *)

Lemma Z_le_exact (a b : Z) : (a <=? b)%Z = true <-> (inject_Z a <= inject_Z b)%Q.
Proof. by rewrite Z.leb_le, Zle_Qle. Qed.

Lemma Z_lt_exact (a b : Z) : (a <? b)%Z = true <-> (inject_Z a < inject_Z b)%Q.
Proof. by rewrite Z.ltb_lt, Zlt_Qlt. Qed.

Lemma Z_add_exact (a b : Z) : (inject_Z (a + b) == inject_Z a + inject_Z b)%Q.
Proof. rewrite inject_Z_plus. reflexivity. Qed.

Lemma Z_sub_exact (a b : Z) : (inject_Z (a - b) == inject_Z a - inject_Z b)%Q.
Proof.
  unfold Z.sub. rewrite inject_Z_plus, inject_Z_opp. reflexivity.
Qed.

Lemma Q_lt_exact (a b : Q) : negb (Qle_bool b a) = true <-> (a < b)%Q.
Proof.
  rewrite negb_true_iff. split.
  - intros Hle. apply Qnot_le_lt. intros Hba.
    apply Qle_bool_iff in Hba. congruence.
  - intros Hlt. destruct (Qle_bool b a) eqn:Hba; [|done].
    apply Qle_bool_iff in Hba. lra.
Qed.

#[export] Instance ExactNumber_Z : ExactNumber Z := {|
  toQ := inject_Z;
  toQ_const := fun z => Qeq_refl (inject_Z z);
  toQ_le := Z_le_exact;
  toQ_lt := Z_lt_exact;
  toQ_add := Z_add_exact;
  toQ_sub := Z_sub_exact
|}.

#[export] Instance ExactNumber_Q : ExactNumber Q := {|
  toQ := fun q => q;
  toQ_const := fun z => Qeq_refl (inject_Z z);
  toQ_le := Qle_bool_iff;
  toQ_lt := Q_lt_exact;
  toQ_add := fun a b => Qeq_refl (a + b)%Q;
  toQ_sub := fun a b => Qeq_refl (a - b)%Q
|}.

(** ** Range and RangeX *)

Lemma Qceiling_unique (x : Q) (z : Z) :
  (inject_Z (z - 1) < x)%Q -> (x <= inject_Z z)%Q -> Qceiling x = z.
Proof.
  intros Hlo Hhi.
  pose proof (Qle_ceiling x) as Hle. pose proof (Qceiling_lt x) as Hlt.
  assert (H1 : (inject_Z (z - 1) < inject_Z (Qceiling x))%Q) by lra.
  assert (H2 : (inject_Z (Qceiling x - 1) < inject_Z z)%Q) by lra.
  rewrite <- Zlt_Qlt in H1, H2. lia.
Qed.

Lemma Qceiling_pred (x : Q) : Qceiling (x - 1) = (Qceiling x - 1)%Z.
Proof.
  pose proof (Qle_ceiling x) as Hle. pose proof (Qceiling_lt x) as Hlt.
  apply Qceiling_unique.
  - rewrite !Z_sub_exact in *. change (inject_Z 1) with 1%Q in *. lra.
  - rewrite Z_sub_exact. change (inject_Z 1) with 1%Q. lra.
Qed.

Lemma Qceiling_pos (x : Q) : (0 < x)%Q -> (0 < Qceiling x)%Z.
Proof.
  intros Hx. pose proof (Qle_ceiling x) as Hle.
  rewrite Zlt_Qlt. change (inject_Z 0) with 0%Q. lra.
Qed.

Lemma Qceiling_nonpos (x : Q) : (x <= 0)%Q -> (Qceiling x <= 0)%Z.
Proof.
  intros Hx. apply Qceiling_resp_le in Hx.
  change 0%Q with (inject_Z 0) in Hx. by rewrite Qceiling_Z in Hx.
Qed.

Lemma steps_0 (d step : Q) :
  (0 < step)%Q -> (d <= 0)%Q -> Z.to_nat (Qceiling (d / step)) = 0.
Proof.
  intros Hstep Hd.
  assert (Hq : (d / step <= 0)%Q) by (apply Qle_shift_div_r; lra).
  apply Qceiling_nonpos in Hq. lia.
Qed.

Lemma steps_S (d step : Q) :
  (0 < step)%Q -> (0 < d)%Q ->
  Z.to_nat (Qceiling (d / step)) = S (Z.to_nat (Qceiling ((d - step) / step))).
Proof.
  intros Hstep Hd.
  assert (Hq : (0 < d / step)%Q) by (apply Qlt_shift_div_l; lra).
  apply Qceiling_pos in Hq.
  assert (Heq : ((d - step) / step == d / step - 1)%Q) by (field; lra).
  rewrite (Qceiling_comp _ _ Heq), Qceiling_pred. lia.
Qed.

Section RangeXFacts.
Context {N : Type} `{ExactNumber N}.

Section Loops.
Context {St : Type}.
Variable yield : Yield N St.

Lemma RangeX_up_spec (rounds : nat) (start end_ step : N) (st : St) :
  (0 < toQ step)%Q ->
  Z.to_nat (Qceiling ((toQ end_ - toQ start) / toQ step)) <= rounds ->
  RangeX_up yield rounds start end_ step st =
  Returned
    (fst (feed yield
            (progression (fun x => num_add x step) start
               (Z.to_nat (Qceiling ((toQ end_ - toQ start) / toQ step))))
            st)).
Proof.
  intros Hstep. revert start st.
  induction rounds as [|rounds IH]; intros start st Hrounds;
    cbn [RangeX_up]; destruct (num_lt start end_) eqn:Hlt.
  - apply toQ_lt in Hlt. rewrite steps_S in Hrounds by lra. lia.
  - assert (Hge : (toQ end_ <= toQ start)%Q).
    { apply Qnot_lt_le. rewrite <- toQ_lt. congruence. }
    by rewrite steps_0 by lra.
  - apply toQ_lt in Hlt.
    assert (Hnext : ((toQ end_ - toQ (num_add start step)) / toQ step
                     == (toQ end_ - toQ start - toQ step) / toQ step)%Q).
    { rewrite toQ_add. field. lra. }
    rewrite steps_S in Hrounds |- * by lra.
    rewrite <- (Qceiling_comp _ _ Hnext) in Hrounds |- *.
    cbn [progression feed].
    destruct (yield start st) as [st' [|]]; [|done].
    apply IH. lia.
  - assert (Hge : (toQ end_ <= toQ start)%Q).
    { apply Qnot_lt_le. rewrite <- toQ_lt. congruence. }
    by rewrite steps_0 by lra.
Qed.

Lemma RangeX_down_spec (rounds : nat) (start end_ step : N) (st : St) :
  (0 < toQ step)%Q ->
  Z.to_nat (Qceiling ((toQ start - toQ end_) / toQ step)) <= rounds ->
  RangeX_down yield rounds start end_ step st =
  Returned
    (fst (feed yield
            (progression (fun x => num_sub x step) start
               (Z.to_nat (Qceiling ((toQ start - toQ end_) / toQ step))))
            st)).
Proof.
  intros Hstep. revert start st.
  induction rounds as [|rounds IH]; intros start st Hrounds;
    cbn [RangeX_down]; destruct (num_lt end_ start) eqn:Hlt.
  - apply toQ_lt in Hlt. rewrite steps_S in Hrounds by lra. lia.
  - assert (Hge : (toQ start <= toQ end_)%Q).
    { apply Qnot_lt_le. rewrite <- toQ_lt. congruence. }
    by rewrite steps_0 by lra.
  - apply toQ_lt in Hlt.
    assert (Hnext : ((toQ (num_sub start step) - toQ end_) / toQ step
                     == (toQ start - toQ end_ - toQ step) / toQ step)%Q).
    { rewrite toQ_sub. field. lra. }
    rewrite steps_S in Hrounds |- * by lra.
    rewrite <- (Qceiling_comp _ _ Hnext) in Hrounds |- *.
    cbn [progression feed].
    destruct (yield start st) as [st' [|]]; [|done].
    apply IH. lia.
  - assert (Hge : (toQ start <= toQ end_)%Q).
    { apply Qnot_lt_le. rewrite <- toQ_lt. congruence. }
    by rewrite steps_0 by lra.
Qed.


End Loops.
End RangeXFacts.

Section ProgressionFacts.
Context {N : Type}.
Variable next : N -> N.

Lemma progression_length (start : N) (n : nat) :
  length (progression next start n) = n.
Proof.
  revert start. induction n as [|n IH]; intros start; simpl; [done|].
  by rewrite IH.
Qed.

Lemma progression_step (start : N) (n i : nat) (x y : N) :
  progression next start n !! i = Some x ->
  progression next start n !! S i = Some y ->
  y = next x.
Proof.
  revert start i. induction n as [|n IH]; intros start i Hx Hy; [done|].
  destruct i as [|i].
  - simpl in Hx. injection Hx as <-.
    destruct n as [|n]; [done|]. simpl in Hy. by injection Hy as <-.
  - simpl in Hx, Hy. by eapply IH.
Qed.
End ProgressionFacts.

Lemma Qceiling_nonneg (x : Q) : (0 <= x)%Q -> (0 <= Qceiling x)%Z.
Proof.
  intros Hx. apply Qceiling_resp_le in Hx.
  change 0%Q with (inject_Z 0) in Hx. by rewrite Qceiling_Z in Hx.
Qed.

Section RangeXCall.
Context {N : Type} `{ExactNumber N}.

Lemma RangeX_guard (step : N) :
  num_le step (num_const 0%Z) = true <-> (toQ step <= 0)%Q.
Proof.
  rewrite toQ_le, toQ_const. reflexivity.
Qed.

Lemma RangeX_Ok (start end_ step : N) :
  (0 < toQ step)%Q ->
  RangeX start end_ step =
  Ok (fun St yield st rounds =>
        if num_le start end_
        then RangeX_up yield rounds start end_ step st
        else RangeX_down yield rounds start end_ step st).
Proof.
  intros Hstep. unfold RangeX.
  destruct (num_le step (num_const 0%Z)) eqn:Hg; [|done].
  apply RangeX_guard in Hg. lra.
Qed.

End RangeXCall.

(** C3: in exact arithmetic and for [step > 0], RangeX produces
    [ceil(|end - start| / step)] numbers; the first is [start]; every
    number is its predecessor plus [step] when [start <= end] and its
    predecessor minus [step] when [start > end]; for [start == end]
    nothing is produced. *)
Theorem RangeX_progression {N : Type} `{ExactNumber N}
        (start end_ step : N) (rounds : nat) :
  (0 < toQ step)%Q ->
  Z.to_nat (Qceiling (Qabs (toQ end_ - toQ start) / toQ step)) <= rounds ->
  exists s l,
    RangeX start end_ step = Ok s /\
    to_list s rounds = Returned l /\
    Z.of_nat (length l) = Qceiling (Qabs (toQ end_ - toQ start) / toQ step) /\
    ((toQ start == toQ end_)%Q -> l = []) /\
    (~ (toQ start == toQ end_)%Q -> head l = Some start) /\
    (forall i x y, l !! i = Some x -> l !! S i = Some y ->
        ((toQ start <= toQ end_)%Q ->
         y = num_add x step /\ (toQ y == toQ x + toQ step)%Q) /\
        ((toQ end_ < toQ start)%Q ->
         y = num_sub x step /\ (toQ y == toQ x - toQ step)%Q)).
Proof.
  intros Hstep Hrounds.
  set (c := Qceiling (Qabs (toQ end_ - toQ start) / toQ step)) in *.
  assert (Hc : (0 <= c)%Z).
  { apply Qceiling_nonneg, Qle_shift_div_l; [done|].
    pose proof (Qabs_nonneg (toQ end_ - toQ start)). lra. }
  rewrite RangeX_Ok by done.
  exists (fun St yield st rounds =>
            if num_le start end_
            then RangeX_up yield rounds start end_ step st
            else RangeX_down yield rounds start end_ step st).
  unfold to_list.
  destruct (num_le start end_) eqn:Hle.
  - (* ascending *)
    apply toQ_le in Hle.
    assert (Hup : Qceiling ((toQ end_ - toQ start) / toQ step) = c).
    { apply Qceiling_comp. rewrite Qabs_pos by lra. reflexivity. }
    clearbody c.
    exists (progression (fun x => num_add x step) start (Z.to_nat c)).
    split; [reflexivity|]. split; [|split; [|split; [|split]]].
    + rewrite RangeX_up_spec by (rewrite ?Hup; done).
      by rewrite Hup, feed_collect.
    + rewrite progression_length. lia.
    + intros Heq.
      assert (Hzero : ((toQ end_ - toQ start) / toQ step == inject_Z 0)%Q).
      { rewrite Heq. unfold Qdiv. change (inject_Z 0) with 0%Q. ring. }
      rewrite (Qceiling_comp _ _ Hzero), Qceiling_Z in Hup. by rewrite <- Hup.
    + intros Hne.
      assert (Hlt : (0 < toQ end_ - toQ start)%Q).
      { destruct (Qlt_le_dec (toQ start) (toQ end_)) as [?|Hge]; [lra|].
        exfalso. apply Hne. by apply Qle_antisym. }
      rewrite <- Hup. by rewrite steps_S by done.
    + intros i x y Hx Hy. split; [|intros; lra].
      intros _. pose proof (progression_step _ _ _ _ _ _ Hx Hy) as ->.
      split; [done | apply toQ_add].
  - (* descending *)
    assert (Hlt : (toQ end_ < toQ start)%Q).
    { apply Qnot_le_lt. rewrite <- toQ_le. congruence. }
    assert (Hdown : Qceiling ((toQ start - toQ end_) / toQ step) = c).
    { apply Qceiling_comp. rewrite Qabs_neg by lra.
      unfold Qdiv. ring. }
    clearbody c.
    exists (progression (fun x => num_sub x step) start (Z.to_nat c)).
    split; [reflexivity|]. split; [|split; [|split; [|split]]].
    + rewrite RangeX_down_spec by (rewrite ?Hdown; done).
      by rewrite Hdown, feed_collect.
    + rewrite progression_length. lia.
    + intros Heq. lra.
    + intros _. rewrite <- Hdown. by rewrite steps_S by lra.
    + intros i x y Hx Hy. split; [intros; lra|].
      intros _. pose proof (progression_step _ _ _ _ _ _ Hx Hy) as ->.
      split; [done | apply toQ_sub].
Qed.

Lemma RangeX_progression_witness :
  (0 < toQ 3%Z)%Q /\
  Z.to_nat (Qceiling (Qabs (toQ 32%Z - toQ 10%Z) / toQ 3%Z)) <= 8 /\
  exists s l,
    RangeX 10%Z 32%Z 3%Z = Ok s /\
    to_list s 8 = Returned l /\
    Z.of_nat (length l) = Qceiling (Qabs (toQ 32%Z - toQ 10%Z) / toQ 3%Z).
Proof.
  split; [reflexivity|]. split; [vm_compute; lia|].
  destruct (RangeX_progression 10%Z 32%Z 3%Z 8)
    as (s & l & Hs & Hrun & Hlen & _); [reflexivity | vm_compute; lia |].
  exists s, l. split; [exact Hs|]. split; [exact Hrun | exact Hlen].
Defined.

Lemma inject_Z_pos (b : Z) : (0 < b)%Z -> (0 < inject_Z b)%Q.
Proof. intros Hb. change 0%Q with (inject_Z 0). by rewrite <- Zlt_Qlt. Qed.

(** The count of C3 for integers, with integer division. *)
Lemma Qceiling_Zdiv (a b : Z) :
  (0 < b)%Z ->
  Qceiling (inject_Z a / inject_Z b) = ((a + b - 1) / b)%Z.
Proof.
  intros Hb. apply Qceiling_unique.
  - apply Qlt_shift_div_l; [by apply inject_Z_pos|].
    rewrite <- inject_Z_mult, <- Zlt_Qlt.
    pose proof (Z.mul_div_le (a + b - 1) b Hb).
    pose proof (Z.mod_pos_bound (a + b - 1) b Hb).
    pose proof (Z.div_mod (a + b - 1) b). nia.
  - apply Qle_shift_div_r; [by apply inject_Z_pos|].
    rewrite <- inject_Z_mult, <- Zle_Qle.
    pose proof (Z.mod_pos_bound (a + b - 1) b Hb).
    pose proof (Z.div_mod (a + b - 1) b). nia.
Qed.

Lemma RangeX_Z_count (start end_ step : Z) :
  (0 < step)%Z ->
  Qceiling (Qabs (toQ end_ - toQ start) / toQ step)
  = ((Z.abs (end_ - start) + step - 1) / step)%Z.
Proof.
  intros Hstep. rewrite <- Qceiling_Zdiv by done.
  apply Qceiling_comp. simpl toQ.
  rewrite <- Z_sub_exact. reflexivity.
Qed.

Example RangeX_int_up :
  elements (RangeX 10%Z 32%Z 3%Z) 8
  = Ok (Returned [10; 13; 16; 19; 22; 25; 28; 31]%Z).
Proof. reflexivity. Qed.

Example RangeX_int_down :
  elements (RangeX 27%Z 10%Z 4%Z) 5 = Ok (Returned [27; 23; 19; 15; 11]%Z).
Proof. reflexivity. Qed.

Example Range_empty : elements (Range 0%Z 0%Z) 0 = Ok (Returned []).
Proof. reflexivity. Qed.

Example RangeX_rational_length :
  match elements (RangeX 1%Q (17 # 2)%Q (1 # 2)%Q) 15 with
  | Ok (Returned l) => length l = 15 /\ Forall (fun x => (x < 17 # 2)%Q) l
  | _ => False
  end.
Proof. vm_compute. split; [done|]. repeat constructor. Qed.


(** ** The examples of the test suite *)

Example Merge_ranges :
  to_list (Merge [[0; 1; 2]; [10; 11; 12]; [20; 21; 22]]) 4
  = Returned [0; 10; 20; 1; 11; 21; 2; 12; 22].
Proof. reflexivity. Qed.

Example Merge_stops_with_consumer :
  first_n 2 (Merge [[0; 1; 2]; [10]; [20; 21]]) 4 = Returned [0; 10].
Proof. reflexivity. Qed.

Example Zip_ranges :
  to_list (Zip [[0; 3; 6; 9]; [1; 4; 7; 10]; [2; 5; 8]]) 4
  = Returned [[0; 1; 2]; [3; 4; 5]; [6; 7; 8]].
Proof. reflexivity. Qed.

Example ZipLongest_ranges :
  to_list (ZipLongest 0 [[0; 3; 6; 9]; [1; 4; 7; 10]; [2; 5; 8]]) 5
  = Returned [[0; 1; 2]; [3; 4; 5]; [6; 7; 8]; [9; 10; 0]].
Proof. reflexivity. Qed.

Example Spans_of_4 :
  elements (Spans [1; 2; 3; 4; 5; 6; 7; 8; 9; 10; 11] 4) 3
  = Ok (Returned [([1; 2; 3; 4], true); ([5; 6; 7; 8], true);
                  ([9; 10; 11], false)]).
Proof. reflexivity. Qed.

Example Spans_of_2 :
  elements (Spans [1; 2; 3; 4; 5; 6; 7; 8; 9; 10] 2) 5
  = Ok (Returned [([1; 2], true); ([3; 4], true); ([5; 6], true);
                  ([7; 8], true); ([9; 10], true)]).
Proof. reflexivity. Qed.

Example Spans_bad_stride :
  elements (Spans [1; 2; 3] 0) 3 = Panicked "stride must be > 0"%string.
Proof. reflexivity. Qed.

Example Zip_no_sources_three_rows :
  first_n 3 (Zip (@nil (list nat))) 3 = Returned [[]; []; []].
Proof. reflexivity. Qed.

(** * Further properties of the package *)

(** ** HasPrefix and HasSuffix *)

Section ScannerFacts.
Context {E : Type} `{EqDecision E}.
Implicit Types values prefix suffix : list E.

Lemma HasPrefix_loop_spec (n i : nat) values prefix :
  i + n = length prefix ->
  i <= length values ->
  exists b,
    HasPrefix_loop n i values prefix = Ok b /\
    (b = true <-> drop i prefix `prefix_of` drop i values).
Proof.
  revert i. induction n as [|n IH]; intros i Hn Hi.
  - exists true. split; [done|]. split; [|done].
    intros _. rewrite drop_ge by lia. apply prefix_nil.
  - cbn [HasPrefix_loop].
    destruct (lookup_lt_is_Some_2 prefix i) as [p Hp]; [lia|].
    rewrite (drop_S _ _ _ Hp).
    destruct (Nat.eqb_spec i (length values)) as [->|Hne].
    + exists false. split; [done|]. split; [done|].
      rewrite (drop_ge values) by lia. intros Hpre.
      apply prefix_nil_inv in Hpre. done.
    + destruct (lookup_lt_is_Some_2 values i) as [v Hv]; [lia|].
      rewrite Hv, Hp, (drop_S _ _ _ Hv).
      destruct (decide (v = p)) as [->|Hvp].
      * rewrite bool_decide_eq_false_2 by (intros Hc; by apply Hc).
        destruct (IH (S i)) as (b & Hb & Hiff); [lia | |].
        { apply lookup_lt_Some in Hv. lia. }
        exists b. split; [done|]. rewrite Hiff.
        split; [apply prefix_cons | apply prefix_cons_inv_2].
      * rewrite bool_decide_eq_true_2 by done.
        exists false. split; [done|]. split; [done|].
        intros Hpre. apply prefix_cons_inv_1 in Hpre. congruence.
Qed.

Lemma HasSuffix_loop_spec (k : nat) values suffix :
  length suffix <= length values ->
  k <= length suffix ->
  exists b,
    HasSuffix_loop k
      (Z.of_nat (length values - length suffix + k) - 1)%Z values suffix
    = Ok b /\
    (b = true <->
     take k suffix = take k (drop (length values - length suffix) values)).
Proof.
  intros Hlen. set (m := length values - length suffix).
  induction k as [|i IH]; intros Hk.
  - exists true. split; [done|]. by rewrite !take_0.
  - cbn [HasSuffix_loop].
    destruct (lookup_lt_is_Some_2 suffix i) as [s Hs]; [lia|].
    destruct (lookup_lt_is_Some_2 values (m + i)) as [v Hv]; [lia|].
    assert (Hd : drop m values !! i = Some v) by by rewrite lookup_drop.
    unfold index.
    destruct (Z.ltb_spec (Z.of_nat (m + S i) - 1) 0); [lia|].
    replace (Z.to_nat (Z.of_nat (m + S i) - 1)) with (m + i) by lia.
    rewrite Hv, Hs.
    rewrite (take_S_r _ _ _ Hs), (take_S_r _ _ _ Hd).
    destruct (decide (v = s)) as [->|Hvs].
    + rewrite bool_decide_eq_false_2 by (intros Hc; by apply Hc).
      replace (Z.of_nat (m + S i) - 1 - 1)%Z with (Z.of_nat (m + i) - 1)%Z
        by lia.
      destruct IH as (b & Hb & Hiff); [lia|].
      exists b. split; [done|]. rewrite Hiff.
      split; [by intros -> | by intros [? _]%app_inj_tail].
    + rewrite bool_decide_eq_true_2 by done.
      exists false. split; [done|]. split; [done|].
      intros Heq%app_inj_tail. destruct Heq as [_ ?]. congruence.
Qed.
End ScannerFacts.

Lemma HasPrefix_prefix_of {E : Type} `{EqDecision E} (values prefix : list E) :
  exists b,
    HasPrefix values prefix = Ok b /\ (b = true <-> prefix `prefix_of` values).
Proof.
  destruct (HasPrefix_loop_spec (length prefix) 0 values prefix)
    as (b & Hb & Hiff); [done | lia |].
  rewrite !drop_0 in Hiff. by exists b.
Qed.

Lemma HasSuffix_suffix_of {E : Type} `{EqDecision E} (values suffix : list E) :
  exists b,
    HasSuffix values suffix = Ok b /\ (b = true <-> suffix `suffix_of` values).
Proof.
  unfold HasSuffix.
  destruct (Nat.ltb_spec (length values) (length suffix)) as [Hlt|Hge].
  - exists false. split; [done|]. split; [done|].
    intros [front ->]. rewrite length_app in Hlt. lia.
  - destruct (HasSuffix_loop_spec (length suffix) values suffix)
      as (b & Hb & Hiff); [done | done |].
    replace (length values - length suffix + length suffix)
      with (length values) in Hb by lia.
    exists b. split; [done|].
    rewrite Hiff. rewrite firstn_all.
    rewrite take_ge by (rewrite length_drop; lia).
    split.
    + intros Heq. exists (take (length values - length suffix) values).
      rewrite <- (take_drop (length values - length suffix) values) at 1.
      by rewrite <- Heq.
    + intros [front ->]. rewrite length_app.
      replace (length front + length suffix - length suffix)
        with (length front) by lia.
      by rewrite drop_app_length.
Qed.

(** X1: HasPrefix never fails on an index, and it answers [true]
    exactly when [values] starts with [prefix], that is, when the first
    [len(prefix)] elements of [values] are [prefix]. *)
Theorem HasPrefix_correct {E : Type} `{EqDecision E} (values prefix : list E) :
  exists b,
    HasPrefix values prefix = Ok b /\
    (b = true <-> exists rest, values = prefix ++ rest) /\
    (b = true <->
     length prefix <= length values /\ take (length prefix) values = prefix).
Proof.
  destruct (HasPrefix_prefix_of values prefix) as (b & Hb & Hiff).
  exists b. split; [done|]. split; [done|].
  rewrite Hiff. split.
  - intros [rest ->]. rewrite length_app. split; [lia|].
    by rewrite take_app_length.
  - intros [_ Htake]. exists (drop (length prefix) values).
    by rewrite <- Htake at 1; rewrite take_drop.
Qed.

(** X2: HasSuffix never fails on an index, and it answers [true] exactly
    when [values] ends with [suffix]; a suffix longer than [values] is
    never one. *)
Theorem HasSuffix_correct {E : Type} `{EqDecision E} (values suffix : list E) :
  exists b,
    HasSuffix values suffix = Ok b /\
    (b = true <-> exists front, values = front ++ suffix) /\
    (length values < length suffix -> b = false).
Proof.
  destruct (HasSuffix_suffix_of values suffix) as (b & Hb & Hiff).
  exists b. split; [done|]. split; [done|].
  intros Hlt. destruct b; [|done].
  destruct (proj1 Hiff eq_refl) as [front ->].
  rewrite length_app in Hlt. lia.
Qed.

(** X3: HasSuffix is HasPrefix read from the other end: both give the
    same answer on the reversed slices. *)
Theorem HasSuffix_reverse {E : Type} `{EqDecision E} (values suffix : list E) :
  HasSuffix values suffix = HasPrefix (reverse values) (reverse suffix).
Proof.
  destruct (HasSuffix_suffix_of values suffix) as (b1 & -> & H1).
  destruct (HasPrefix_prefix_of (reverse values) (reverse suffix))
    as (b2 & -> & H2).
  f_equal. apply eq_true_iff_eq. rewrite H1, H2.
  apply suffix_prefix_reverse.
Qed.

(** ** LastIndex and LastIndexFunc *)

Section LastIndexFacts.
Context {E : Type}.
Implicit Types values : list E.

Lemma LastIndexFunc_loop_spec (k : nat) values (found : E -> bool) :
  k <= length values ->
  (LastIndexFunc_loop k values found = Ok (-1)%Z /\
   forall j v, j < k -> values !! j = Some v -> found v = false) \/
  (exists i v,
      LastIndexFunc_loop k values found = Ok (Z.of_nat i) /\
      i < k /\ values !! i = Some v /\ found v = true /\
      forall j w, i < j < k -> values !! j = Some w -> found w = false).
Proof.
  induction k as [|i IH]; intros Hk.
  - left. split; [done|]. intros j v Hj. lia.
  - cbn [LastIndexFunc_loop].
    destruct (lookup_lt_is_Some_2 values i) as [v Hv]; [lia|].
    rewrite Hv. destruct (found v) eqn:Hf.
    + right. exists i, v. repeat split; try done; [lia|].
      intros j w Hj. lia.
    + destruct IH as [[Hr Hnone]|(i' & v' & Hr & Hi' & Hv' & Hf' & Hafter)];
        [lia| |].
      * left. split; [done|]. intros j w Hj Hw.
        destruct (decide (j = i)) as [->|Hne]; [congruence|].
        apply (Hnone j); [lia | done].
      * right. exists i', v'. repeat split; try done; [lia|].
        intros j w Hj Hw.
        destruct (decide (j = i)) as [->|Hne]; [congruence|].
        apply (Hafter j); [lia | done].
Qed.

Lemma LastIndex_loop_func `{EqDecision E} (k : nat) values (value : E) :
  LastIndex_loop k values value
  = LastIndexFunc_loop k values (fun v => bool_decide (v = value)).
Proof.
  induction k as [|i IH]; [done|]. cbn. by rewrite IH.
Qed.
End LastIndexFacts.

Lemma LastIndexFunc_spec {E : Type} (values : list E) (found : E -> bool) :
  exists r,
    LastIndexFunc values found = Ok r /\
    (-1 <= r < len values)%Z /\
    (r = (-1)%Z <-> forall v, v ∈ values -> found v = false) /\
    (r <> (-1)%Z ->
     exists v, values !! Z.to_nat r = Some v /\ found v = true /\
               forall j w, Z.to_nat r < j -> values !! j = Some w ->
                           found w = false).
Proof.
  unfold LastIndexFunc, len.
  destruct (LastIndexFunc_loop_spec (length values) values found)
    as [[Hr Hnone]|(i & v & Hr & Hi & Hv & Hf & Hafter)]; [done| |].
  - exists (-1)%Z. split; [done|]. split; [lia|]. split; [|done].
    split; [|done]. intros _ v [j Hj]%list_elem_of_lookup.
    apply (Hnone j); [by eapply lookup_lt_Some | done].
  - exists (Z.of_nat i). split; [done|]. split; [lia|]. split.
    + split; [lia|]. intros Hnone.
      rewrite Hnone in Hf; [done|]. by eapply list_elem_of_lookup_2.
    + intros _. rewrite Nat2Z.id. exists v. repeat split; try done.
      intros j w Hj Hw. apply (Hafter j); [|done].
      apply lookup_lt_Some in Hw. lia.
Qed.

(** X4: LastIndexFunc never fails on an index.  It returns [-1] exactly
    when no element satisfies [found]; otherwise it returns the position
    of an element that satisfies [found] after which none does. *)
Theorem LastIndexFunc_rightmost {E : Type} (values : list E)
        (found : E -> bool) :
  exists r,
    LastIndexFunc values found = Ok r /\
    (-1 <= r < len values)%Z /\
    (r = (-1)%Z <-> forall v, v ∈ values -> found v = false) /\
    (r <> (-1)%Z ->
     exists v, values !! Z.to_nat r = Some v /\ found v = true /\
               forall j w, Z.to_nat r < j -> values !! j = Some w ->
                           found w = false).
Proof. apply LastIndexFunc_spec. Qed.

(** X5: LastIndex never fails on an index.  It returns [-1] exactly when
    [value] does not occur in [values]; otherwise it returns the position
    of the rightmost occurrence. *)
Theorem LastIndex_rightmost {E : Type} `{EqDecision E} (values : list E)
        (value : E) :
  exists r,
    LastIndex values value = Ok r /\
    (-1 <= r < len values)%Z /\
    (r = (-1)%Z <-> value ∉ values) /\
    (r <> (-1)%Z ->
     values !! Z.to_nat r = Some value /\
     forall j, Z.to_nat r < j -> values !! j <> Some value).
Proof.
  unfold LastIndex. rewrite LastIndex_loop_func.
  destruct (LastIndexFunc_spec values (fun v => bool_decide (v = value)))
    as (r & Hr & Hrange & Hnone & Hsome).
  exists r. split; [exact Hr|]. split; [done|]. split.
  - rewrite Hnone. split.
    + intros Hall Hin. specialize (Hall _ Hin).
      by rewrite bool_decide_eq_true_2 in Hall.
    + intros Hnot v Hin. apply bool_decide_eq_false_2. by intros ->.
  - intros Hne. destruct (Hsome Hne) as (v & Hv & Hf & Hafter).
    apply bool_decide_eq_true_1 in Hf as ->. split; [done|].
    intros j Hj Hw. specialize (Hafter j value Hj Hw).
    by rewrite bool_decide_eq_true_2 in Hafter.
Qed.

(** X6: LastIndex is LastIndexFunc with the test [== value]. *)
Theorem LastIndex_as_LastIndexFunc {E : Type} `{EqDecision E}
        (values : list E) (value : E) :
  LastIndex values value
  = LastIndexFunc values (fun v => bool_decide (v = value)).
Proof. apply LastIndex_loop_func. Qed.

(** ** Consumers that stop early *)

Lemma feed_collect_upto {T : Type} (k : nat) (xs acc : list T) :
  length acc < k ->
  fst (feed (collect_upto k) xs acc) = acc ++ take (k - length acc) xs.
Proof.
  revert acc. induction xs as [|x xs IH]; intros acc Hk.
  - rewrite take_nil. simpl. by rewrite app_nil_r.
  - cbn [feed]. unfold collect_upto at 1. rewrite length_app. simpl length.
    destruct (Nat.ltb_spec (length acc + 1) k) as [Hlt|Hge].
    + rewrite IH by (rewrite length_app; simpl; lia).
      rewrite length_app. simpl length.
      replace (k - length acc) with (S (k - (length acc + 1))) by lia.
      by rewrite <- app_assoc.
    + replace (k - length acc) with 1 by lia. done.
Qed.

(** A range function that behaves like ranging over the slice [l] hands
    the first [k] elements of [l] to a loop that breaks after [k]. *)
Lemma first_n_of_feed {T : Type} (s : Seq T) (l : list T) (k rounds : nat) :
  (forall (St : Type) (yield : Yield T St) (st : St),
      s St yield st rounds = Returned (fst (feed yield l st))) ->
  first_n (S k) s rounds = Returned (take (S k) l).
Proof.
  intros Hs. unfold first_n. rewrite Hs.
  by rewrite feed_collect_upto by (simpl; lia).
Qed.

(** ** Map *)

Section MapFacts.
Context {A T : Type}.
Variable mapper : A -> T * bool.

Lemma Map_loop_feed {St : Type} (yield : Yield T St) (sources : list A)
      (st : St) :
  Map_loop mapper yield sources st
  = feed yield (omap (kept mapper) sources) st.
Proof.
  revert st. induction sources as [|source rest IH]; intros st; [done|].
  cbn [Map_loop omap list_omap]. unfold kept at 1.
  destruct (mapper source) as [target [|]]; [|apply IH].
  cbn [feed]. destruct (yield target st) as [st' [|]]; [apply IH | done].
Qed.

Lemma omap_kept (sources : list A) :
  omap (kept mapper) sources
  = map (fun source => fst (mapper source))
        (filter (fun source => snd (mapper source) = true) sources).
Proof.
  induction sources as [|source rest IH]; [done|].
  cbn [omap list_omap]. rewrite filter_cons. unfold kept at 1.
  destruct (mapper source) as [target [|]] eqn:Hm; simpl.
  - rewrite Hm. simpl. by f_equal.
  - done.
Qed.
End MapFacts.

(** X7: Map yields, in source order, the transformed value of exactly
    those sources for which the mapper's [ok] is true, and drops the
    others; it needs no bound on its rounds. *)
Theorem Map_filter_map {A T : Type} (sources : list A)
        (mapper : A -> T * bool) (rounds : nat) :
  to_list (Map sources mapper) rounds
  = Returned (map (fun source => fst (mapper source))
                  (filter (fun source => snd (mapper source) = true) sources)).
Proof.
  unfold to_list, Map. rewrite Map_loop_feed, feed_collect.
  by rewrite omap_kept.
Qed.

(** X8: whatever the consumer, Map behaves like ranging over the kept
    values: it stops calling [yield] as soon as the consumer answers
    [false], so a loop that breaks after [k+1] values has received the
    first [k+1] kept values. *)
Theorem Map_any_consumer {A T : Type} (sources : list A)
        (mapper : A -> T * bool) (rounds : nat) :
  (forall (St : Type) (yield : Yield T St) (st : St),
      Map sources mapper St yield st rounds
      = Returned (fst (feed yield (omap (kept mapper) sources) st))) /\
  (forall k,
      first_n (S k) (Map sources mapper) rounds
      = Returned (take (S k) (omap (kept mapper) sources))).
Proof.
  assert (Hfeed : forall (St : Type) (yield : Yield T St) (st : St),
             Map sources mapper St yield st rounds
             = Returned (fst (feed yield (omap (kept mapper) sources) st))).
  { intros St yield st. unfold Map. by rewrite Map_loop_feed. }
  split; [exact Hfeed|]. intros k. by apply first_n_of_feed.
Qed.

Example Map_keeps_even_squares :
  to_list (Map [1; 2; 3; 4; 5; 6] (fun n => (n * n, Nat.even n))) 0
  = Returned [4; 16; 36].
Proof. reflexivity. Qed.

(** ** Merge, Zip and ZipLongest against any consumer *)

(** X9: whatever the consumer, Merge behaves like ranging over the
    round-robin interleaving: once [yield] answers [false] nothing more
    is pulled or yielded, so a loop that breaks after [k+1] elements has
    received the first [k+1] of them. *)
Theorem Merge_any_consumer {E : Type} (rfns : list (list E)) (rounds : nat) :
  max_list_with length rfns < rounds ->
  (forall (St : Type) (yield : Yield E St) (st : St),
      Merge rfns St yield st rounds
      = Returned (fst (feed yield (round_robin rfns) st))) /\
  (forall k,
      first_n (S k) (Merge rfns) rounds
      = Returned (take (S k) (round_robin rfns))).
Proof.
  intros Hrounds.
  assert (Hfeed : forall (St : Type) (yield : Yield E St) (st : St),
             Merge rfns St yield st rounds
             = Returned (fst (feed yield (round_robin rfns) st)))
    by (intros; by apply Merge_spec).
  split; [exact Hfeed|]. intros k. by apply first_n_of_feed.
Qed.

Lemma Merge_any_consumer_witness :
  max_list_with length [[0; 1; 2]; [10]; [20; 21]] < 4 /\
  first_n 2 (Merge [[0; 1; 2]; [10]; [20; 21]]) 4
  = Returned (take 2 (round_robin [[0; 1; 2]; [10]; [20; 21]])).
Proof.
  split; [vm_compute; lia|].
  apply (Merge_any_consumer [[0; 1; 2]; [10]; [20; 21]] 4).
  vm_compute; lia.
Defined.

(** X10: whatever the consumer, Zip of at least one source behaves
    like ranging over its complete rows; a loop that breaks after [k+1]
    rows has received the first [k+1] rows. *)
Theorem Zip_any_consumer {E : Type} (rfns : list (list E)) (rounds : nat) :
  rfns <> [] ->
  min_len rfns < rounds ->
  (forall (St : Type) (yield : Yield (list E) St) (st : St),
      Zip rfns St yield st rounds
      = Returned
          (fst (feed yield
                     (map (sweep_elements rfns) (seq 0 (min_len rfns))) st))) /\
  (forall k,
      first_n (S k) (Zip rfns) rounds
      = Returned (take (S k) (map (sweep_elements rfns)
                                   (seq 0 (min_len rfns))))).
Proof.
  intros Hne Hrounds.
  assert (Hfeed : forall (St : Type) (yield : Yield (list E) St) (st : St),
             Zip rfns St yield st rounds
             = Returned
                 (fst (feed yield
                            (map (sweep_elements rfns) (seq 0 (min_len rfns)))
                            st)))
    by (intros; by apply Zip_spec).
  split; [exact Hfeed|]. intros k. by apply first_n_of_feed.
Qed.

Lemma Zip_any_consumer_witness :
  [[0; 3; 6; 9]; [1; 4; 7; 10]; [2; 5; 8]] <> [] /\
  min_len [[0; 3; 6; 9]; [1; 4; 7; 10]; [2; 5; 8]] < 4 /\
  first_n 2 (Zip [[0; 3; 6; 9]; [1; 4; 7; 10]; [2; 5; 8]]) 4
  = Returned (take 2 (map (sweep_elements
                             [[0; 3; 6; 9]; [1; 4; 7; 10]; [2; 5; 8]])
                          (seq 0 (min_len
                             [[0; 3; 6; 9]; [1; 4; 7; 10]; [2; 5; 8]])))).
Proof.
  split; [done|]. split; [vm_compute; lia|].
  apply (Zip_any_consumer [[0; 3; 6; 9]; [1; 4; 7; 10]; [2; 5; 8]] 4);
    [done | vm_compute; lia].
Defined.

(** X11: whatever the consumer, ZipLongest behaves like ranging over
    its padded rows; a loop that breaks after [k+1] rows has received the
    first [k+1] rows. *)
Theorem ZipLongest_any_consumer {E : Type} (zero : E) (rfns : list (list E))
        (rounds : nat) :
  max_list_with length rfns < rounds ->
  (forall (St : Type) (yield : Yield (list E) St) (st : St),
      ZipLongest zero rfns St yield st rounds
      = Returned
          (fst (feed yield
                     (map (padded_row zero rfns)
                          (seq 0 (max_list_with length rfns))) st))) /\
  (forall k,
      first_n (S k) (ZipLongest zero rfns) rounds
      = Returned (take (S k) (map (padded_row zero rfns)
                                   (seq 0 (max_list_with length rfns))))).
Proof.
  intros Hrounds.
  assert (Hfeed : forall (St : Type) (yield : Yield (list E) St) (st : St),
             ZipLongest zero rfns St yield st rounds
             = Returned
                 (fst (feed yield
                            (map (padded_row zero rfns)
                                 (seq 0 (max_list_with length rfns))) st)))
    by (intros; by apply ZipLongest_spec).
  split; [exact Hfeed|]. intros k. by apply first_n_of_feed.
Qed.

Lemma ZipLongest_any_consumer_witness :
  max_list_with length [[0; 3; 6; 9]; [1; 4; 7; 10]; [2; 5; 8]] < 5 /\
  first_n 1 (ZipLongest 0 [[0; 3; 6; 9]; [1; 4; 7; 10]; [2; 5; 8]]) 5
  = Returned (take 1 (map (padded_row 0
                             [[0; 3; 6; 9]; [1; 4; 7; 10]; [2; 5; 8]])
                          (seq 0 (max_list_with length
                             [[0; 3; 6; 9]; [1; 4; 7; 10]; [2; 5; 8]])))).
Proof.
  split; [vm_compute; lia|].
  apply (ZipLongest_any_consumer 0 [[0; 3; 6; 9]; [1; 4; 7; 10]; [2; 5; 8]] 5).
  vm_compute; lia.
Defined.

(** ** Merge never fails on an index *)

Section MergeNoPanic.
Context {E St : Type}.
Variable yield : Yield E St.

Lemma Merge_loop_no_panic (rounds : nat) (pulls : list (list E))
      (oks : list bool) (st : St) (msg : string) :
  length oks = length pulls ->
  Merge_loop yield rounds pulls oks st <> Panic msg.
Proof.
  revert pulls oks st.
  induction rounds as [|rounds IH]; intros pulls oks st Hlen; simpl.
  - by destruct (Contains_true oks).
  - destruct (Contains_true oks); [|done].
    rewrite Merge_sweep_spec by (simpl; lia).
    rewrite !drop_0, !take_0. simpl.
    destruct (feed yield _ st) as [st' [|]]; [|done].
    apply IH. unfold sweep_oks, sweep_pulls.
    rewrite !length_zip_with. lia.
Qed.
End MergeNoPanic.

(** X12: Merge keeps its flags and its pull handles in step: whatever
    the sources, the consumer and the number of rounds, no index
    expression of its loops is ever out of range. *)
Theorem Merge_never_panics {E St : Type} (rfns : list (list E))
        (yield : Yield E St) (st : St) (rounds : nat) (msg : string) :
  Merge rfns St yield st rounds <> Panic msg.
Proof.
  unfold Merge. apply Merge_loop_no_panic. by rewrite !length_map.
Qed.

(** ** What Merge does to its sources *)

Section MergeContent.
Context {E : Type}.
Implicit Types rfns : list (list E).

Lemma concat_heads_tails rfns :
  concat rfns ≡ₚ sweep_elements rfns 0 ++ concat (map tail rfns).
Proof.
  unfold sweep_elements.
  induction rfns as [|rfn rfns IH]; simpl; [done|].
  rewrite IH. destruct rfn as [|x t]; simpl; [done|].
  constructor. rewrite !app_assoc. apply Permutation_app_tail.
  apply Permutation_app_comm.
Qed.

Lemma round_robin_permutation rfns : round_robin rfns ≡ₚ concat rfns.
Proof.
  remember (max_list_with length rfns) as m eqn:Hm.
  revert rfns Hm. induction m as [|m IH]; intros rfns Hm.
  - assert (Hnil : Forall (fun rfn => rfn = []) rfns)
      by by apply max_len_0_all_nil.
    rewrite round_robin_all_nil by done.
    clear Hm. induction Hnil as [|rfn rfns -> _ IH']; simpl; done.
  - rewrite round_robin_unfold, concat_heads_tails.
    apply Permutation_app_head, IH. rewrite max_len_tail. lia.
Qed.

Lemma head_in_sweep rfns x t : x :: t ∈ rfns -> x ∈ sweep_elements rfns 0.
Proof.
  unfold sweep_elements. intros Hin.
  apply list_elem_of_In, in_flat_map. exists (x :: t).
  split; [by apply list_elem_of_In | by left].
Qed.

Lemma round_robin_sublist rfns rfn :
  rfn ∈ rfns -> rfn `sublist_of` round_robin rfns.
Proof.
  remember (max_list_with length rfns) as m eqn:Hm.
  revert rfns rfn Hm. induction m as [|m IH]; intros rfns rfn Hm Hin.
  - pose proof (max_len_ge rfns rfn Hin) as Hle.
    destruct rfn; [apply sublist_nil_l | simpl in Hle; lia].
  - destruct rfn as [|x t]; [apply sublist_nil_l|].
    rewrite round_robin_unfold.
    change (x :: t) with ([x] ++ t). apply sublist_app.
    + apply singleton_sublist_l. by eapply head_in_sweep.
    + apply IH; [rewrite max_len_tail; lia|].
      change t with (tail (x :: t)). by apply list_elem_of_fmap_2.
Qed.

Lemma round_robin_single (rfn : list E) : round_robin [rfn] = rfn.
Proof.
  induction rfn as [|x t IH]; [done|].
  rewrite round_robin_unfold. simpl. by rewrite IH.
Qed.
End MergeContent.

(** X13: Merge neither loses nor invents nor repeats anything: what it
    yields is a rearrangement of all the elements of all its sources. *)
Theorem Merge_permutation {E : Type} (rfns : list (list E)) (rounds : nat) :
  max_list_with length rfns < rounds ->
  exists merged,
    to_list (Merge rfns) rounds = Returned merged /\
    merged ≡ₚ concat rfns.
Proof.
  intros Hrounds. exists (round_robin rfns). split.
  - unfold to_list. rewrite Merge_spec by done. by rewrite feed_collect.
  - apply round_robin_permutation.
Qed.

Lemma Merge_permutation_witness :
  max_list_with length [[0; 1; 2]; [10]; [20; 21]] < 4 /\
  exists merged,
    to_list (Merge [[0; 1; 2]; [10]; [20; 21]]) 4 = Returned merged /\
    merged ≡ₚ [0; 1; 2; 10; 20; 21].
Proof.
  split; [vm_compute; lia|].
  apply (Merge_permutation [[0; 1; 2]; [10]; [20; 21]] 4).
  vm_compute; lia.
Defined.

(** X14: Merge keeps the order inside every source: each source is a
    subsequence of what Merge yields; in particular Merge of a single
    source yields that source. *)
Theorem Merge_keeps_source_order {E : Type} (rfns : list (list E))
        (rounds : nat) :
  max_list_with length rfns < rounds ->
  exists merged,
    to_list (Merge rfns) rounds = Returned merged /\
    (forall rfn, rfn ∈ rfns -> rfn `sublist_of` merged) /\
    (forall rfn, rfns = [rfn] -> merged = rfn).
Proof.
  intros Hrounds. exists (round_robin rfns). split; [|split].
  - unfold to_list. rewrite Merge_spec by done. by rewrite feed_collect.
  - apply round_robin_sublist.
  - intros rfn ->. apply round_robin_single.
Qed.

Lemma Merge_keeps_source_order_witness :
  max_list_with length [[0; 1; 2]; [10]; [20; 21]] < 4 /\
  exists merged,
    to_list (Merge [[0; 1; 2]; [10]; [20; 21]]) 4 = Returned merged /\
    [20; 21] `sublist_of` merged.
Proof.
  split; [vm_compute; lia|].
  destruct (Merge_keeps_source_order [[0; 1; 2]; [10]; [20; 21]] 4)
    as (merged & Hrun & Hsub & _); [vm_compute; lia|].
  exists merged. split; [exact Hrun|].
  apply Hsub. apply list_elem_of_further, list_elem_of_further, list_elem_of_here.
Defined.

(** ** Zip against ZipLongest and Merge *)

Section ZipRelations.
Context {E : Type}.
Implicit Types rfns : list (list E).

Lemma min_len_le_max_len rfns : min_len rfns <= max_list_with length rfns.
Proof.
  destruct rfns as [|rfn rfns]; [done|].
  destruct (min_len_attained (rfn :: rfns)) as (r & Hin & <-); [done|].
  by apply max_len_ge.
Qed.

Lemma sweep_elements_padded (zero : E) rfns r :
  r < min_len rfns -> sweep_elements rfns r = padded_row zero rfns r.
Proof.
  intros Hr.
  assert (Hall : Forall (fun rfn => r < length rfn) rfns).
  { apply Forall_forall. intros rfn Hin. apply min_len_le in Hin. lia. }
  clear Hr. unfold sweep_elements, padded_row.
  induction Hall as [|rfn rfns Hlt _ IH]; simpl; [done|].
  destruct (lookup_lt_is_Some_2 rfn r Hlt) as [x Hx].
  rewrite Hx. simpl. by rewrite IH.
Qed.

Lemma Zip_rows_take (zero : E) rfns :
  map (sweep_elements rfns) (seq 0 (min_len rfns))
  = take (min_len rfns)
         (map (padded_row zero rfns) (seq 0 (max_list_with length rfns))).
Proof.
  rewrite <- fmap_take, take_seq.
  rewrite Nat.min_l by apply min_len_le_max_len.
  apply map_ext_in. intros r Hr%in_seq.
  apply sweep_elements_padded. lia.
Qed.

Lemma Zip_rows_round_robin rfns :
  round_robin rfns
  = concat (map (sweep_elements rfns) (seq 0 (min_len rfns)))
    ++ flat_map (sweep_elements rfns)
                (seq (min_len rfns)
                     (max_list_with length rfns - min_len rfns)).
Proof.
  unfold round_robin.
  replace (max_list_with length rfns)
    with (min_len rfns + (max_list_with length rfns - min_len rfns)) at 1
    by (pose proof (min_len_le_max_len rfns); lia).
  rewrite seq_app, flat_map_app. by rewrite flat_map_concat_map.
Qed.
End ZipRelations.

(** X15: the rows of Zip are the first [min(len...)] rows of ZipLongest
    on the same sources; when all sources have the same length the two
    yield the same rows. *)
Theorem Zip_prefix_of_ZipLongest {E : Type} (zero : E) (rfns : list (list E))
        (rounds : nat) :
  rfns <> [] ->
  max_list_with length rfns < rounds ->
  exists rows padded,
    to_list (Zip rfns) rounds = Returned rows /\
    to_list (ZipLongest zero rfns) rounds = Returned padded /\
    rows = take (min_len rfns) padded /\
    (min_len rfns = max_list_with length rfns -> rows = padded).
Proof.
  intros Hne Hrounds.
  exists (map (sweep_elements rfns) (seq 0 (min_len rfns))),
         (map (padded_row zero rfns) (seq 0 (max_list_with length rfns))).
  split; [|split; [|split]].
  - unfold to_list. rewrite Zip_spec; [by rewrite feed_collect | done |].
    pose proof (min_len_le_max_len rfns). lia.
  - unfold to_list. rewrite ZipLongest_spec by done. by rewrite feed_collect.
  - apply Zip_rows_take.
  - intros Heq. rewrite (Zip_rows_take zero), Heq.
    apply take_ge. by rewrite length_map, length_seq.
Qed.

Lemma Zip_prefix_of_ZipLongest_witness :
  [[0; 3; 6; 9]; [1; 4; 7; 10]; [2; 5; 8]] <> [] /\
  max_list_with length [[0; 3; 6; 9]; [1; 4; 7; 10]; [2; 5; 8]] < 5 /\
  exists rows padded,
    to_list (Zip [[0; 3; 6; 9]; [1; 4; 7; 10]; [2; 5; 8]]) 5 = Returned rows /\
    to_list (ZipLongest 0 [[0; 3; 6; 9]; [1; 4; 7; 10]; [2; 5; 8]]) 5
    = Returned padded /\
    rows = take 3 padded.
Proof.
  split; [done|]. split; [vm_compute; lia|].
  destruct (Zip_prefix_of_ZipLongest 0
              [[0; 3; 6; 9]; [1; 4; 7; 10]; [2; 5; 8]] 5)
    as (rows & padded & Hz & Hl & Htake & _); [done | vm_compute; lia |].
  exists rows, padded. split; [exact Hz|]. split; [exact Hl | exact Htake].
Defined.

(** X16: reading the rows of Zip one after the other gives the
    beginning of what Merge yields on the same sources, and all of it
    when the sources have the same length. *)
Theorem Zip_rows_begin_Merge {E : Type} (rfns : list (list E)) (rounds : nat) :
  rfns <> [] ->
  max_list_with length rfns < rounds ->
  exists rows merged,
    to_list (Zip rfns) rounds = Returned rows /\
    to_list (Merge rfns) rounds = Returned merged /\
    concat rows `prefix_of` merged /\
    (min_len rfns = max_list_with length rfns -> concat rows = merged).
Proof.
  intros Hne Hrounds.
  exists (map (sweep_elements rfns) (seq 0 (min_len rfns))),
         (round_robin rfns).
  split; [|split; [|split]].
  - unfold to_list. rewrite Zip_spec; [by rewrite feed_collect | done |].
    pose proof (min_len_le_max_len rfns). lia.
  - unfold to_list. rewrite Merge_spec by done. by rewrite feed_collect.
  - rewrite (Zip_rows_round_robin rfns). by eexists.
  - intros Heq. rewrite (Zip_rows_round_robin rfns).
    rewrite Heq, Nat.sub_diag. simpl. by rewrite app_nil_r.
Qed.

Lemma Zip_rows_begin_Merge_witness :
  [[0; 3; 6; 9]; [1; 4; 7; 10]; [2; 5; 8]] <> [] /\
  max_list_with length [[0; 3; 6; 9]; [1; 4; 7; 10]; [2; 5; 8]] < 5 /\
  exists rows merged,
    to_list (Zip [[0; 3; 6; 9]; [1; 4; 7; 10]; [2; 5; 8]]) 5 = Returned rows /\
    to_list (Merge [[0; 3; 6; 9]; [1; 4; 7; 10]; [2; 5; 8]]) 5
    = Returned merged /\
    concat rows `prefix_of` merged.
Proof.
  split; [done|]. split; [vm_compute; lia|].
  destruct (Zip_rows_begin_Merge [[0; 3; 6; 9]; [1; 4; 7; 10]; [2; 5; 8]] 5)
    as (rows & merged & Hz & Hm & Hpre & _); [done | vm_compute; lia |].
  exists rows, merged. split; [exact Hz|]. split; [exact Hm | exact Hpre].
Defined.

(** ** Spans: the windows one by one *)

Section SpansWindows.
Context {T : Type}.
Implicit Types slice l : list T.





End SpansWindows.





(** ** RangeX: the numbers one by one *)

Section RangeXValues.
Context {N : Type} `{ExactNumber N}.

Lemma RangeX_values_feed {St : Type} (yield : Yield N St)
      (start end_ step : N) (rounds : nat) (st : St) :
  (0 < toQ step)%Q ->
  length (RangeX_values start end_ step) <= rounds ->
  (if num_le start end_
   then RangeX_up yield rounds start end_ step st
   else RangeX_down yield rounds start end_ step st)
  = Returned (fst (feed yield (RangeX_values start end_ step) st)).
Proof.
  intros Hstep. unfold RangeX_values.
  destruct (num_le start end_); rewrite progression_length; intros Hrounds.
  - by apply RangeX_up_spec.
  - by apply RangeX_down_spec.
Qed.

Lemma progression_nth_up (start step : N) (n k : nat) (x : N) :
  progression (fun y => num_add y step) start n !! k = Some x ->
  (toQ x == toQ start + inject_Z (Z.of_nat k) * toQ step)%Q.
Proof.
  revert start k. induction n as [|n IH]; intros start k Hx; [done|].
  destruct k as [|k].
  - simpl in Hx. injection Hx as <-. simpl. change (inject_Z 0) with 0%Q. ring.
  - simpl in Hx. apply IH in Hx. rewrite Hx, toQ_add.
    rewrite Nat2Z.inj_succ. unfold Z.succ. rewrite inject_Z_plus.
    change (inject_Z 1) with 1%Q. ring.
Qed.

Lemma progression_nth_down (start step : N) (n k : nat) (x : N) :
  progression (fun y => num_sub y step) start n !! k = Some x ->
  (toQ x == toQ start - inject_Z (Z.of_nat k) * toQ step)%Q.
Proof.
  revert start k. induction n as [|n IH]; intros start k Hx; [done|].
  destruct k as [|k].
  - simpl in Hx. injection Hx as <-. simpl. change (inject_Z 0) with 0%Q. ring.
  - simpl in Hx. apply IH in Hx. rewrite Hx, toQ_sub.
    rewrite Nat2Z.inj_succ. unfold Z.succ. rewrite inject_Z_plus.
    change (inject_Z 1) with 1%Q. ring.
Qed.

(** Fewer than [ceil(d / step)] steps stay short of the distance [d]. *)
Lemma steps_short (d step : Q) (k : nat) :
  (0 < step)%Q ->
  k < Z.to_nat (Qceiling (d / step)) ->
  (0 <= inject_Z (Z.of_nat k) * step < d)%Q.
Proof.
  intros Hstep Hk.
  assert (Hk0 : (0 <= inject_Z (Z.of_nat k))%Q).
  { change 0%Q with (inject_Z 0). rewrite <- Zle_Qle. lia. }
  split; [apply Qmult_le_0_compat; lra|].
  pose proof (Qceiling_lt (d / step)) as Hlt.
  assert (Hle : (inject_Z (Z.of_nat k) <= inject_Z (Qceiling (d / step) - 1))%Q)
    by (rewrite <- Zle_Qle; lia).
  assert (Hq : (inject_Z (Z.of_nat k) < d / step)%Q) by lra.
  apply (Qmult_lt_compat_r _ _ step Hstep) in Hq.
  assert (Hd : (d / step * step == d)%Q) by (field; lra).
  lra.
Qed.
End RangeXValues.

(** X19: whatever the consumer, RangeX with a positive step behaves
    like ranging over its numbers; a loop that breaks after [k+1] numbers
    has received the first [k+1] of them. *)
Theorem RangeX_any_consumer {N : Type} `{ExactNumber N}
        (start end_ step : N) (rounds : nat) :
  (0 < toQ step)%Q ->
  length (RangeX_values start end_ step) <= rounds ->
  exists s,
    RangeX start end_ step = Ok s /\
    (forall (St : Type) (yield : Yield N St) (st : St),
        s St yield st rounds
        = Returned (fst (feed yield (RangeX_values start end_ step) st))) /\
    (forall k,
        first_n (S k) s rounds
        = Returned (take (S k) (RangeX_values start end_ step))).
Proof.
  intros Hstep Hrounds. eexists. split; [by apply RangeX_Ok|].
  assert (Hfeed : forall (St : Type) (yield : Yield N St) (st : St),
             (if num_le start end_
              then RangeX_up yield rounds start end_ step st
              else RangeX_down yield rounds start end_ step st)
             = Returned (fst (feed yield (RangeX_values start end_ step) st)))
    by (intros; by apply RangeX_values_feed).
  split; [exact Hfeed|]. intros k. by apply first_n_of_feed.
Qed.

Lemma RangeX_any_consumer_witness :
  (0 < toQ 3%Z)%Q /\
  length (RangeX_values 10%Z 32%Z 3%Z) <= 8 /\
  exists s,
    RangeX 10%Z 32%Z 3%Z = Ok s /\
    first_n 3 s 8 = Returned (take 3 (RangeX_values 10%Z 32%Z 3%Z)).
Proof.
  split; [reflexivity|]. split; [vm_compute; lia|].
  destruct (RangeX_any_consumer 10%Z 32%Z 3%Z 8)
    as (s & Hs & _ & Hfirst); [reflexivity | vm_compute; lia |].
  exists s. split; [exact Hs | exact (Hfirst 2)].
Defined.

(** X20: in exact arithmetic the number RangeX yields at position [k]
    is [start + k*step] going up and [start - k*step] going down, and
    every number lies between [start] (included) and [end] (excluded):
    [end] itself is never yielded. *)
Theorem RangeX_within_bounds {N : Type} `{ExactNumber N}
        (start end_ step : N) (rounds : nat) :
  (0 < toQ step)%Q ->
  length (RangeX_values start end_ step) <= rounds ->
  exists s l,
    RangeX start end_ step = Ok s /\
    to_list s rounds = Returned l /\
    (forall k x, l !! k = Some x ->
        ((toQ start <= toQ end_)%Q ->
         (toQ x == toQ start + inject_Z (Z.of_nat k) * toQ step)%Q /\
         (toQ start <= toQ x < toQ end_)%Q) /\
        ((toQ end_ < toQ start)%Q ->
         (toQ x == toQ start - inject_Z (Z.of_nat k) * toQ step)%Q /\
         (toQ end_ < toQ x <= toQ start)%Q)).
Proof.
  intros Hstep Hrounds. eexists. exists (RangeX_values start end_ step).
  split; [by apply RangeX_Ok|]. split.
  - unfold to_list. rewrite RangeX_values_feed by done.
    by rewrite feed_collect.
  - intros k x Hx. unfold RangeX_values in Hx.
    destruct (num_le start end_) eqn:Hle.
    + apply toQ_le in Hle. split; [|intros; lra]. intros _.
      pose proof (lookup_lt_Some _ _ _ Hx) as Hk.
      rewrite progression_length in Hk.
      apply (steps_short _ _ _ Hstep) in Hk.
      apply progression_nth_up in Hx. split; [done|]. lra.
    + assert (Hlt : (toQ end_ < toQ start)%Q).
      { apply Qnot_le_lt. rewrite <- toQ_le. congruence. }
      split; [intros; lra|]. intros _.
      pose proof (lookup_lt_Some _ _ _ Hx) as Hk.
      rewrite progression_length in Hk.
      apply (steps_short _ _ _ Hstep) in Hk.
      apply progression_nth_down in Hx. split; [done|]. lra.
Qed.

Lemma RangeX_within_bounds_witness :
  (0 < toQ (1 # 2)%Q)%Q /\
  length (RangeX_values 1%Q (17 # 2)%Q (1 # 2)%Q) <= 15 /\
  exists s l,
    RangeX 1%Q (17 # 2)%Q (1 # 2)%Q = Ok s /\
    to_list s 15 = Returned l /\
    forall k x, l !! k = Some x -> (1 <= x < 17 # 2)%Q.
Proof.
  split; [reflexivity|]. split; [vm_compute; lia|].
  destruct (RangeX_within_bounds 1%Q (17 # 2)%Q (1 # 2)%Q 15)
    as (s & l & Hs & Hrun & Hall); [reflexivity | vm_compute; lia |].
  exists s, l. split; [exact Hs|]. split; [exact Hrun|].
  intros k x Hx. destruct (Hall k x Hx) as [Hup _].
  apply Hup. vm_compute. discriminate.
Defined.

(** ** RangeX and Range over the integers *)

Lemma progression_Z_up (start step : Z) (n : nat) :
  progression (fun x => x + step)%Z start n
  = map (fun k => start + Z.of_nat k * step)%Z (seq 0 n).
Proof.
  revert start. induction n as [|n IH]; intros start; [done|].
  cbn [progression seq map]. f_equal; [lia|].
  rewrite IH, <- seq_shift, map_map. apply map_ext. intros k. lia.
Qed.

Lemma progression_Z_down (start step : Z) (n : nat) :
  progression (fun x => x - step)%Z start n
  = map (fun k => start - Z.of_nat k * step)%Z (seq 0 n).
Proof.
  revert start. induction n as [|n IH]; intros start; [done|].
  cbn [progression seq map]. f_equal; [lia|].
  rewrite IH, <- seq_shift, map_map. apply map_ext. intros k. lia.
Qed.

Lemma Qceiling_Z_sub_div (a b step : Z) :
  (0 < step)%Z ->
  Qceiling ((inject_Z a - inject_Z b) / inject_Z step)
  = ((a - b + step - 1) / step)%Z.
Proof.
  intros Hstep. rewrite <- Qceiling_Zdiv by done.
  apply Qceiling_comp. by rewrite Z_sub_exact.
Qed.

Lemma RangeX_values_Z (start end_ step : Z) :
  (0 < step)%Z ->
  RangeX_values start end_ step
  = map (fun k => if (start <=? end_)%Z
                  then (start + Z.of_nat k * step)%Z
                  else (start - Z.of_nat k * step)%Z)
        (seq 0 (Z.to_nat ((Z.abs (end_ - start) + step - 1) / step))).
Proof.
  intros Hstep. unfold RangeX_values. simpl.
  destruct (Z.leb_spec start end_) as [Hle|Hgt].
  - rewrite Qceiling_Z_sub_div by done.
    rewrite Z.abs_eq by lia. apply progression_Z_up.
  - rewrite Qceiling_Z_sub_div by done.
    rewrite Z.abs_neq by lia.
    replace (- (end_ - start))%Z with (start - end_)%Z by lia.
    apply progression_Z_down.
Qed.

Lemma RangeX_Z_run (start end_ step : Z) (rounds : nat) :
  (0 < step)%Z ->
  Z.to_nat ((Z.abs (end_ - start) + step - 1) / step) <= rounds ->
  exists s,
    RangeX start end_ step = Ok s /\
    to_list s rounds
    = Returned
        (map (fun k => if (start <=? end_)%Z
                       then (start + Z.of_nat k * step)%Z
                       else (start - Z.of_nat k * step)%Z)
             (seq 0 (Z.to_nat ((Z.abs (end_ - start) + step - 1) / step)))).
Proof.
  intros Hstep Hrounds.
  assert (HstepQ : (0 < toQ step)%Q) by by apply inject_Z_pos.
  eexists. split; [by apply RangeX_Ok|].
  unfold to_list. rewrite <- RangeX_values_Z by done.
  rewrite RangeX_values_feed; [by rewrite feed_collect | done |].
  by rewrite RangeX_values_Z, length_map, length_seq.
Qed.

(** X21: over the integers (no overflow) and for [step > 0], RangeX
    yields [start + k*step] (going up) or [start - k*step] (going down)
    for [k = 0, 1, ..., n-1], where [n] is [|end - start|] divided by
    [step] and rounded up. *)
Theorem RangeX_Z_elements (start end_ step : Z) (rounds : nat) :
  (0 < step)%Z ->
  Z.to_nat ((Z.abs (end_ - start) + step - 1) / step) <= rounds ->
  exists s,
    RangeX start end_ step = Ok s /\
    to_list s rounds
    = Returned
        (map (fun k => if (start <=? end_)%Z
                       then (start + Z.of_nat k * step)%Z
                       else (start - Z.of_nat k * step)%Z)
             (seq 0 (Z.to_nat ((Z.abs (end_ - start) + step - 1) / step)))).
Proof. apply RangeX_Z_run. Qed.

Lemma RangeX_Z_elements_witness :
  (0 < 4)%Z /\
  Z.to_nat ((Z.abs (10 - 27) + 4 - 1) / 4) <= 5 /\
  exists s,
    RangeX 27%Z 10%Z 4%Z = Ok s /\
    to_list s 5 = Returned [27; 23; 19; 15; 11]%Z.
Proof.
  split; [lia|]. split; [vm_compute; lia|].
  destruct (RangeX_Z_elements 27 10 4 5) as (s & Hs & Hrun);
    [lia | vm_compute; lia |].
  exists s. split; [exact Hs | exact Hrun].
Defined.

(** X22: Range over the integers never panics; it yields the
    [|end - start|] consecutive integers from [start] up to [end - 1],
    or from [start] down to [end + 1] when [start > end]. *)
Theorem Range_Z_consecutive (start end_ : Z) (rounds : nat) :
  Z.to_nat (Z.abs (end_ - start)) <= rounds ->
  exists s,
    Range start end_ = Ok s /\
    to_list s rounds
    = Returned
        (map (fun k => if (start <=? end_)%Z
                       then (start + Z.of_nat k)%Z
                       else (start - Z.of_nat k)%Z)
             (seq 0 (Z.to_nat (Z.abs (end_ - start))))).
Proof.
  intros Hrounds. unfold Range.
  change (RangeX start end_ (num_const 1%Z)) with (RangeX start end_ 1%Z).
  assert (Hn : ((Z.abs (end_ - start) + 1 - 1) / 1 = Z.abs (end_ - start))%Z)
    by (rewrite Z.div_1_r; lia).
  destruct (RangeX_Z_run start end_ 1 rounds) as (s & Hs & Hrun);
    [lia | by rewrite Hn |].
  exists s. split; [exact Hs|]. rewrite Hrun, Hn.
  f_equal. apply map_ext. intros k. by rewrite Z.mul_1_r.
Qed.

Lemma Range_Z_consecutive_witness :
  Z.to_nat (Z.abs (15 - 5)) <= 10 /\
  exists s,
    Range 5%Z 15%Z = Ok s /\
    to_list s 10 = Returned [5; 6; 7; 8; 9; 10; 11; 12; 13; 14]%Z.
Proof.
  split; [vm_compute; lia|].
  destruct (Range_Z_consecutive 5 15 10) as (s & Hs & Hrun);
    [vm_compute; lia|].
  exists s. split; [exact Hs | exact Hrun].
Defined.

(** ** Reduce, composed *)

(** X23: reducing a concatenation is reducing the second part from the
    result of the first; and since the element comes first, reducing
    with [cons] from the empty list reverses the list. *)
Theorem Reduce_append {E A : Type} (xs ys : list E) (combine : E -> A -> A)
        (initial : A) :
  Reduce (xs ++ ys) combine initial
  = Reduce ys combine (Reduce xs combine initial) /\
  Reduce xs cons [] = reverse xs.
Proof.
  split; [apply Reduce_app|].
  assert (Hacc : forall acc : list E, Reduce xs cons acc = reverse xs ++ acc).
  { induction xs as [|x xs' IH]; intros acc; [done|].
    simpl. rewrite IH, reverse_cons. by rewrite <- app_assoc. }
  by rewrite Hacc, app_nil_r.
Qed.
